(** * Allô Kapri catalog API: a shallow embedding of [src/index.js]

    The development follows the source file top-down:
    - the JavaScript values the code manipulates (numbers, strings, the
      loosely typed spreadsheet cells) and the run-time primitives it calls
      on them ([String], [Number], [trim], [split], [Array.prototype.sort]...);
    - the field normalisers [normModel], [toIdFromModel], [safeNumber];
    - [buildCatalog] with its inner functions [normRow], [ensureProduct],
      [addVar];
    - the [/api/featured] handler with [minPriceForModel].

    Modelling conventions.
    - A JavaScript number is [NaN] or a finite value, kept as the exact
      rational it denotes (every binary64 value is such a rational).  The
      arithmetic of the synthesized rating and reviews and the reading of the
      [count] parameter round to binary64 ([round64]) and know the
      infinities, as the run-time system does; elsewhere a numeric literal
      has the value it denotes, exact.
    - Strings are sequences of 8-bit characters; case mapping and the
      white-space class are the ASCII ones.
    - A sheet row (a JS object read through fixed property names) is a finite
      map from header to cell; an absent header reads as [undefined].
    - The [variants] object and the [byModel] map are insertion ordered, and
      the code iterates over them: they are association lists.
    - [Math.random] is a function from the call index to the draw. *)

From stdpp Require Import gmap strings list sorting.
From Stdlib Require Import Ascii String QArith Qabs Qround Qpower Lqa DecimalString DecimalN.

Local Close Scope Q_scope.
Local Open Scope string_scope.

(** ** Numbers *)

Inductive number : Type :=
  | NaN
  | Fin (q : Q).

Definition num_of_Z (z : Z) : number := Fin (inject_Z z).

(** [a < b] on numbers: false as soon as one side is [NaN]. *)
Definition num_ltb (a b : number) : bool :=
  match a, b with
  | Fin x, Fin y => negb (Qle_bool y x)
  | _, _ => false
  end.

(** [a - b]. *)
Definition num_sub (a b : number) : number :=
  match a, b with
  | Fin x, Fin y => Fin (Qred (x - y))
  | _, _ => NaN
  end.

(** The equality used by [Set] and [Map] (SameValueZero): [NaN] equals
    itself. *)
Definition sameValueZero (a b : number) : bool :=
  match a, b with
  | NaN, NaN => true
  | Fin x, Fin y => Qeq_bool x y
  | _, _ => false
  end.

(** Equality of the denoted values, as a proposition. *)
Definition num_eq (a b : number) : Prop :=
  match a, b with
  | NaN, NaN => True
  | Fin x, Fin y => (x == y)%Q
  | _, _ => False
  end.

Definition Math_min (a b : number) : number :=
  match a, b with
  | Fin x, Fin y => if Qle_bool x y then a else b
  | _, _ => NaN
  end.

Definition Math_max (a b : number) : number :=
  match a, b with
  | Fin x, Fin y => if Qle_bool x y then b else a
  | _, _ => NaN
  end.

Definition Math_floor (a : number) : number :=
  match a with
  | Fin x => num_of_Z (Qfloor x)
  | NaN => NaN
  end.

(** [Math.round]: nearest integer, ties towards plus infinity. *)
Definition Math_round (a : number) : number :=
  match a with
  | Fin x => num_of_Z (Qfloor (x + (1 # 2)))
  | NaN => NaN
  end.

Definition num_add (a b : number) : number :=
  match a, b with
  | Fin x, Fin y => Fin (Qred (x + y))
  | _, _ => NaN
  end.

Definition num_mul (a b : number) : number :=
  match a, b with
  | Fin x, Fin y => Fin (Qred (x * y))
  | _, _ => NaN
  end.

Definition num_div (a b : number) : number :=
  match a, b with
  | Fin x, Fin y => if Qeq_bool y 0 then NaN else Fin (Qred (x / y))
  | _, _ => NaN
  end.


(** *** binary64 *)

(** The integer nearest to [x], the even one when [x] is half-way. *)
Definition round_half_even (x : Q) : Z :=
  let f := Qfloor x in
  match Qcompare (x - inject_Z f) (1 # 2) with
  | Lt => f
  | Gt => (f + 1)%Z
  | Eq => if Z.even f then f else (f + 1)%Z
  end.

(** The binary exponent of [q] as binary64 sees it: the [e] with
    [2^e <= |q| < 2^(e+1)], and -1022 below [2^-1022] (the subnormal
    range). *)
Definition exponent64 (q : Q) : Z :=
  (Z.log2 (Qfloor (Qabs q * inject_Z (2 ^ 1022))) - 1022)%Z.

(** Rounding to binary64, to nearest, ties to even: the multiple of
    [2^(e-52)] nearest to [q], for [e] the exponent of [q].  A result of
    magnitude [2^1024], which binary64 replaces by an infinity, is left as
    it is: [overflows64] tells it. *)
Definition round64 (q : Q) : Q :=
  let ulp := Qpower 2 (exponent64 q - 52) in
  Qred (inject_Z (round_half_even (q / ulp)) * ulp).

(** The rounded value is out of range: the arithmetic gives an infinity. *)
Definition overflows64 (q : Q) : bool :=
  Qle_bool (inject_Z (2 ^ 1024)) (Qabs (round64 q)).

(** [q] is a value of binary64. *)
Definition is_binary64 (q : Q) : bool :=
  Qeq_bool (round64 q) q && negb (overflows64 q).

(** The result of an arithmetic operation as binary64 stores it (no
    operation of the code modelled with it leaves the range). *)
Definition fl (a : number) : number :=
  match a with
  | Fin x => Fin (round64 x)
  | NaN => NaN
  end.

(** ** Characters and strings *)

Definition char_in (lo hi c : ascii) : bool :=
  (N_of_ascii lo <=? N_of_ascii c)%N && (N_of_ascii c <=? N_of_ascii hi)%N.

Definition is_digit (c : ascii) : bool := char_in "0" "9" c.
Definition is_lower (c : ascii) : bool := char_in "a" "z" c.
Definition is_upper (c : ascii) : bool := char_in "A" "Z" c.

(** The class [\s], restricted to ASCII: space, TAB, LF, VT, FF, CR. *)
Definition is_space (c : ascii) : bool :=
  let n := N_of_ascii c in
  (n =? 32)%N || ((9 <=? n)%N && (n <=? 13)%N).

Definition lower_char (c : ascii) : ascii :=
  if is_upper c then ascii_of_N (N_of_ascii c + 32) else c.

Definition upper_char (c : ascii) : ascii :=
  if is_lower c then ascii_of_N (N_of_ascii c - 32) else c.

Fixpoint string_map (f : ascii → ascii) (s : string) : string :=
  match s with
  | EmptyString => EmptyString
  | String c s' => String (f c) (string_map f s')
  end.

Fixpoint string_filter (p : ascii → bool) (s : string) : string :=
  match s with
  | EmptyString => EmptyString
  | String c s' => if p c then String c (string_filter p s') else string_filter p s'
  end.

Fixpoint string_forall (p : ascii → bool) (s : string) : bool :=
  match s with
  | EmptyString => true
  | String c s' => p c && string_forall p s'
  end.

Definition toLowerCase : string → string := string_map lower_char.
Definition toUpperCase : string → string := string_map upper_char.

Definition is_empty (s : string) : bool :=
  match s with EmptyString => true | _ => false end.

Fixpoint trimStart (s : string) : string :=
  match s with
  | EmptyString => EmptyString
  | String c s' => if is_space c then trimStart s' else s
  end.

Fixpoint trimEnd (s : string) : string :=
  match s with
  | EmptyString => EmptyString
  | String c s' =>
      let t := trimEnd s' in
      if is_space c && is_empty t then EmptyString else String c t
  end.

Definition trim (s : string) : string := trimEnd (trimStart s).

(** [s.replace(/\s+/g, rep)]: every maximal run of white space becomes one
    [rep].  [in_run] tells that the previous character was white space. *)
Fixpoint replace_ws_runs (rep : string) (in_run : bool) (s : string) : string :=
  match s with
  | EmptyString => EmptyString
  | String c s' =>
      if is_space c then
        if in_run then replace_ws_runs rep true s'
        else rep ++ replace_ws_runs rep true s'
      else String c (replace_ws_runs rep false s')
  end.

(** [s.replace(c, rep)] with a one-character string pattern: only the first
    occurrence is replaced. *)
Fixpoint replace_first (c : ascii) (rep : string) (s : string) : string :=
  match s with
  | EmptyString => EmptyString
  | String a s' =>
      if Ascii.eqb a c then rep ++ s' else String a (replace_first c rep s')
  end.

Fixpoint string_take (n : nat) (s : string) : string :=
  match n, s with
  | S n', String c s' => String c (string_take n' s')
  | _, _ => EmptyString
  end.

Fixpoint string_drop (n : nat) (s : string) : string :=
  match n, s with
  | S n', String _ s' => string_drop n' s'
  | _, _ => s
  end.

Definition startsWith (s pre : string) : bool := String.prefix pre s.

(** [s.includes(needle)]. *)
Fixpoint includes (s needle : string) : bool :=
  String.prefix needle s ||
  match s with
  | EmptyString => false
  | String _ s' => includes s' needle
  end.

(** [s.split(sep)] for a one-character separator. *)
Fixpoint split (sep : ascii) (s : string) : list string :=
  match s with
  | EmptyString => [EmptyString]
  | String c s' =>
      if Ascii.eqb c sep then EmptyString :: split sep s'
      else match split sep s' with
           | [] => [String c EmptyString]
           | h :: t => String c h :: t
           end
  end.

(** Cuts [s] at the first character satisfying [p]: the part before it and,
    when there is such a character, the part after it. *)
Fixpoint break_at (p : ascii → bool) (s : string) : string * option string :=
  match s with
  | EmptyString => (EmptyString, None)
  | String c s' =>
      if p c then (EmptyString, Some s')
      else let '(a, b) := break_at p s' in (String c a, b)
  end.

Fixpoint repeat_char (c : ascii) (n : nat) : string :=
  match n with
  | O => EmptyString
  | S n' => String c (repeat_char c n')
  end.

(** ** Reading a number: [Number(s)] on a string *)

(** The value of a run of decimal digits; the empty run is worth 0 and a
    character that is not a digit makes it fail. *)
Definition digits_value (s : string) : option N :=
  N.of_uint <$> NilEmpty.uint_of_string s.

Definition radix_digit (radix : N) (c : ascii) : option N :=
  let n := N_of_ascii c in
  let v := if is_digit c then Some (n - 48)%N
           else if char_in "a" "f" c then Some (n - 87)%N
           else if char_in "A" "F" c then Some (n - 55)%N
           else None in
  v ≫= λ d, if (d <? radix)%N then Some d else None.

Fixpoint radix_value (radix : N) (acc : N) (s : string) : option N :=
  match s with
  | EmptyString => Some acc
  | String c s' =>
      radix_digit radix c ≫= λ d, radix_value radix (acc * radix + d)%N s'
  end.

(** [0x..], [0o..], [0b..] literals (no sign allowed): [None] when [s] has no
    such prefix, [Some NaN] when the digits after it are wrong or missing. *)
Definition radix_literal (s : string) : option number :=
  match s with
  | String "0" (String x ds) =>
      let lit radix :=
        Some (if is_empty ds then NaN
              else match radix_value radix 0 ds with
                   | Some n => num_of_Z (Z.of_N n)
                   | None => NaN
                   end) in
      if Ascii.eqb (lower_char x) "x" then lit 16%N
      else if Ascii.eqb (lower_char x) "o" then lit 8%N
      else if Ascii.eqb (lower_char x) "b" then lit 2%N
      else None
  | _ => None
  end.

(** An optional sign in front of [s]. *)
Definition strip_sign (s : string) : bool * string :=
  match s with
  | String "-" s' => (true, s')
  | String "+" s' => (false, s')
  | _ => (false, s)
  end.

Definition signed (neg : bool) (q : Q) : Q := if neg then (- q)%Q else q.

(** The exponent part after [e]: an optional sign and at least one digit. *)
Definition exponent_value (s : string) : option Z :=
  let '(neg, ds) := strip_sign s in
  if is_empty ds then None
  else digits_value ds ≫= λ n,
       Some (if neg then - Z.of_N n else Z.of_N n)%Z.

(** An unsigned decimal literal: digits, an optional point and fraction
    digits (at least one digit on one side of the point), an optional
    exponent. *)
Definition unsigned_decimal (s : string) : option Q :=
  let '(mant, ex) := break_at (λ c, Ascii.eqb (lower_char c) "e") s in
  let '(ip, fp) := break_at (λ c, Ascii.eqb c ".") mant in
  let fp := default EmptyString fp in
  if is_empty ip && is_empty fp then None
  else
    digits_value ip ≫= λ i,
    digits_value fp ≫= λ f,
    match ex with None => Some 0%Z | Some es => exponent_value es end ≫= λ e,
    Some ((inject_Z (Z.of_N i)
           + inject_Z (Z.of_N f) / inject_Z (10 ^ Z.of_nat (String.length fp)))
          * Qpower 10 e)%Q.

(** [Number(s)]: white space around the literal is ignored, the empty
    string is 0, anything that is not a numeric literal is [NaN].  The value
    is that of the literal, exact; the literal [Infinity] and the rounding
    to binary64 are added by [Number64]. *)
Definition StringToNumber (s : string) : number :=
  let t := trim s in
  if is_empty t then Fin 0
  else match radix_literal t with
       | Some n => n
       | None =>
           let '(neg, body) := strip_sign t in
           match unsigned_decimal body with
           | Some q => Fin (Qred (signed neg q))
           | None => NaN
           end
       end.

(** ** Printing a number: [String(n)] *)

Definition N_to_string (n : N) : string := NilZero.string_of_uint (N.to_uint n).

(** The least [k] (searched below [fuel]) such that [d] divides [10^k]. *)
Fixpoint decimal_scale (fuel k : nat) (d : positive) : nat :=
  match fuel with
  | O => k
  | S fuel' =>
      if (10 ^ Z.of_nat k mod Z.pos d =? 0)%Z then k
      else decimal_scale fuel' (S k) d
  end.

Fixpoint strip_trailing_zeros (s : string) : string :=
  match s with
  | EmptyString => EmptyString
  | String c s' =>
      let t := strip_trailing_zeros s' in
      if Ascii.eqb c "0" && is_empty t then EmptyString else String c t
  end.

(** Number::toString of a positive value [a]: the digits [D] of the
    significand and the exponent [n] with [a = 0.D * 10^n], laid out as
    ECMAScript prescribes.  Exact whenever [a] is a decimal fraction, which
    every value of the run-time system is. *)
Definition positive_to_string (a : Q) : string :=
  let k := decimal_scale (S (Pos.size_nat (Qden a))) 0 (Qden a) in
  let m := (Qnum a * 10 ^ Z.of_nat k / Z.pos (Qden a))%Z in
  let D' := N_to_string (Z.to_N m) in
  let D := strip_trailing_zeros D' in
  let n := (Z.of_nat (String.length D') - Z.of_nat k)%Z in
  let kd := Z.of_nat (String.length D) in
  if ((kd <=? n) && (n <=? 21))%Z then
    D ++ repeat_char "0" (Z.to_nat (n - kd))
  else if ((0 <? n) && (n <=? 21))%Z then
    string_take (Z.to_nat n) D ++ "." ++ string_drop (Z.to_nat n) D
  else if ((-6 <? n) && (n <=? 0))%Z then
    "0." ++ repeat_char "0" (Z.to_nat (- n)) ++ D
  else
    let e := (n - 1)%Z in
    let es := (if (e <? 0)%Z then "-" else "+") ++ N_to_string (Z.to_N (Z.abs e)) in
    if (kd =? 1)%Z then D ++ "e" ++ es
    else string_take 1 D ++ "." ++ string_drop 1 D ++ "e" ++ es.

Definition numToString (n : number) : string :=
  match n with
  | NaN => "NaN"
  | Fin q =>
      let q := Qred q in
      if Qeq_bool q 0 then "0"
      else if Pos.eqb (Qden q) 1 && (Z.abs (Qnum q) <? 10 ^ 21)%Z then
        (if (Qnum q <? 0)%Z then "-" else "") ++ N_to_string (Z.to_N (Z.abs (Qnum q)))
      else
        (if (Qnum q <? 0)%Z then "-" else "") ++ positive_to_string (Qabs q)
  end.

(** ** Loosely typed values: the cells of a sheet *)

Inductive jsval : Type :=
  | VUndef
  | VNull
  | VBool (b : bool)
  | VNum (n : number)
  | VStr (s : string).

(** Truthiness, as tested by [!v], [a || b], [a && b], [filter(Boolean)]. *)
Definition truthy (v : jsval) : bool :=
  match v with
  | VUndef | VNull => false
  | VBool b => b
  | VNum NaN => false
  | VNum (Fin q) => negb (Qeq_bool q 0)
  | VStr s => negb (is_empty s)
  end.

(** [a || b]. *)
Definition js_or (a b : jsval) : jsval := if truthy a then a else b.
Infix "|||" := js_or (at level 50, left associativity).

(** [String(v)], also what [v.toString()] gives on a number, a string or a
    boolean. *)
Definition ToString (v : jsval) : string :=
  match v with
  | VUndef => "undefined"
  | VNull => "null"
  | VBool true => "true"
  | VBool false => "false"
  | VNum n => numToString n
  | VStr s => s
  end.

(** [Number(v)]. *)
Definition ToNumber (v : jsval) : number :=
  match v with
  | VUndef => NaN
  | VNull => Fin 0
  | VBool true => Fin 1
  | VBool false => Fin 0
  | VNum n => n
  | VStr s => StringToNumber s
  end.

(** A number or an infinity. *)
Inductive xnumber : Type :=
  | XNum (n : number)
  | XInf (negative : bool).

(** [Number(v)] as binary64 gives it: on a text the literals [Infinity],
    [+Infinity] and [-Infinity] are read, and the value of any other
    literal is rounded, to an infinity when it leaves the range.  (A number
    held by [v] is a binary64 value already.) *)
Definition Number64 (v : jsval) : xnumber :=
  match v with
  | VStr s =>
      let t := trim s in
      if String.eqb t "Infinity" || String.eqb t "+Infinity" then XInf false
      else if String.eqb t "-Infinity" then XInf true
      else match StringToNumber s with
           | NaN => XNum NaN
           | Fin q => if overflows64 q then XInf (negb (Qle_bool 0 q))
                      else XNum (Fin (round64 q))
           end
  | _ => XNum (ToNumber v)
  end.

(** ** Arrays, sets and objects of the run-time system *)

(** [arr.sort(cmp)]: a stable insertion sort; [x] moves past [y] exactly
    when [cmp x y > 0], a [NaN] result counting as 0.  With a consistent
    comparator every correct sort gives this result; with an inconsistent
    one ECMAScript leaves the order to the implementation. *)
Fixpoint sort_insert {A} (cmp : A → A → number) (x : A) (l : list A) : list A :=
  match l with
  | [] => [x]
  | y :: l' => if num_ltb (Fin 0) (cmp x y) then y :: sort_insert cmp x l' else x :: l
  end.

Definition array_sort {A} (cmp : A → A → number) (l : list A) : list A :=
  foldr (sort_insert cmp) [] l.

(** A [Set] of numbers, in insertion order. *)
Definition set_has (s : list number) (x : number) : bool :=
  existsb (sameValueZero x) s.

Definition set_add (s : list number) (x : number) : list number :=
  if set_has s x then s else (s ++ [x])%list.

(** An object used as a dictionary with string keys that are not array
    indices: [Object.keys] lists the keys in the order of their first
    assignment. *)
Fixpoint obj_set {V} (o : list (string * V)) (k : string) (v : V) : list (string * V) :=
  match o with
  | [] => [(k, v)]
  | (k', v') :: o' =>
      if String.eqb k' k then (k', v) :: o' else (k', v') :: obj_set o' k v
  end.

Definition obj_keys {V} (o : list (string * V)) : list string := o.*1.

Fixpoint obj_get {V} (o : list (string * V)) (k : string) : option V :=
  match o with
  | [] => None
  | (k', v') :: o' => if String.eqb k' k then Some v' else obj_get o' k
  end.

(** ** Sheets and rows *)

(** A row as [XLSX.utils.sheet_to_json] yields it: header to cell. *)
Abbreviation row := (gmap string jsval).

(** [r.k]: [undefined] when the row has no such header. *)
Definition prop (r : row) (k : string) : jsval := default VUndef (r !! k).
Notation "r .[ k ]" := (prop r k) (at level 1, left associativity, format "r .[ k ]").

(** A workbook: sheet name to rows. *)
Abbreviation workbook := (gmap string (list row)).

(** [sheetToJson] (index.js 80-84). *)
Definition sheetToJson (wb : workbook) (name : string) : list row :=
  match wb !! name with
  | None => []
  | Some rows => rows
  end.

(** ** Field normalisers *)

(** [inferCategory] (index.js 15-21). *)
Definition inferCategory (model : jsval) (fallback : string) : string :=
  let m := toLowerCase (ToString model) in
  if includes m "ipad" then "iPads"
  else if includes m "macbook" || includes m "mac" then "MacBooks"
  else if includes m "watch" then "Apple Watch"
  else fallback.

(** [s.replace(/^iphone/i, 'iPhone')]. *)
Definition fix_iphone_prefix (s : string) : string :=
  if String.eqb (toLowerCase (string_take 6 s)) "iphone"
  then "iPhone" ++ string_drop 6 s
  else s.

(** [normModel] (index.js 32-37). *)
Definition normModel (m : jsval) : string :=
  if negb (truthy m) then ""
  else fix_iphone_prefix (replace_ws_runs " " false (trim (ToString m))).

(** [toIdFromModel] (index.js 39-41). *)
Definition toIdFromModel (m : string) : string :=
  string_filter (λ c, is_lower c || is_digit c || Ascii.eqb c "-")
    (replace_ws_runs "-" false (toLowerCase m)).

(** The characters kept by [/[^\d.,-]/g]. *)
Definition price_char (c : ascii) : bool :=
  is_digit c || Ascii.eqb c "." || Ascii.eqb c "," || Ascii.eqb c "-".

(** [safeNumber] (index.js 43-49): a number or [null]. *)
Definition safeNumber (v : jsval) : jsval :=
  match v with
  | VNum _ => v
  | _ =>
      if negb (truthy v) then VNull
      else
        let s := replace_first "," "."
                   (replace_first "." "" (string_filter price_char (ToString v))) in
        match StringToNumber s with
        | NaN => VNull
        | n => VNum n
        end
  end.

(** ** buildCatalog (index.js 87-182) *)

Inductive condition : Type := Usado | Novo.

Definition condition_name (c : condition) : string :=
  match c with Usado => "usado" | Novo => "novo" end.

(** The record returned by [normRow]. *)
Record vrow : Type := VRow {
  v_id : string;
  v_model : string;
  v_storage_gb : number;
  v_market : string;
  v_condition : condition;
  v_price : jsval;
  v_currency : string;
  v_disponibilidade : string
}.

(** [a || b] on strings. *)
Definition str_or (a b : string) : string := if is_empty a then b else a.

(** [normRow] (index.js 95-105); [market] is the one [buildCatalog] was
    called with. *)
Definition normRow (market : string) (r : row) (cond : condition) : vrow :=
  let model := normModel (r.["model"] ||| r.["product"] ||| r.["product_name"]
                          ||| r.["product_id"] ||| r.["modelo"]) in
  let id := if truthy r.["product_id"] then ToString r.["product_id"]
            else toIdFromModel model in
  let storage := ToNumber (r.["storage_gb"] ||| r.["gb"] ||| r.["storage"]
                           ||| r.["armazenamento"]) in
  let mkt := str_or (toUpperCase (ToString (r.["market"] ||| r.["mercado"] ||| VStr "")))
                    market in
  let price := safeNumber (r.["price"] ||| r.["price_kz"] ||| r.["kzs"]
                           ||| r.["preco"] ||| r.["valor"]) in
  let currency :=
    toUpperCase (ToString (r.["currency"] ||| r.["moeda"]
                           ||| VStr (if String.eqb mkt "AO" then "AOA" else "USD"))) in
  let disponibilidade :=
    trim (ToString (r.["disponibilidade"] ||| r.["Disponibilidade"]
                    ||| r.["DISPONIBILIDADE"] ||| VStr "")) in
  {| v_id := id; v_model := model; v_storage_gb := storage; v_market := mkt;
     v_condition := cond; v_price := price; v_currency := currency;
     v_disponibilidade := disponibilidade |}.

(** The test of the two [filter] calls (index.js 107-108):
    [r.model && r.price]. *)
Definition retained (r : vrow) : bool :=
  negb (is_empty (v_model r)) && truthy (v_price r).

Definition normRows (market : string) (cond : condition) (rows : list row) : list vrow :=
  List.filter retained (map (λ r, normRow market r cond) rows).

(** The product record kept in [byModel]. *)
Record baseProduct : Type := BaseProduct {
  b_id : string;
  b_model : string;
  b_type : string;
  b_rating : number;
  b_reviews : number;
  b_colors : list jsval;
  b_image : jsval
}.

(** [4 + Math.random()*1], then [Math.round(rating*10)/10]
    (index.js 115, 133); [u] is the draw.  Every sum, product and quotient
    is rounded to binary64; [Math.round] is exact. *)
Definition synthRating (u : Q) : number :=
  let rating := fl (num_add (Fin 4) (fl (num_mul (Fin u) (Fin 1)))) in
  fl (num_div (Math_round (fl (num_mul rating (Fin 10)))) (Fin 10)).

(** [Math.min(250, Math.floor(50 + Math.random()*200))] (index.js 116),
    rounded likewise; [Math.floor] and [Math.min] are exact. *)
Definition synthReviews (u : Q) : number :=
  Math_min (Fin 250)
    (Math_floor (fl (num_add (Fin 50) (fl (num_mul (Fin u) (Fin 200)))))).

(** The [type] field (index.js 130-132). *)
Definition productType (model : string) : string :=
  if includes (toLowerCase model) "iphone" then "iphone"
  else if includes (toLowerCase model) "mac" then "macbook"
  else if includes (toLowerCase model) "ipad" then "ipad"
  else "acessorio".

Definition defaultColors : list jsval :=
  [VStr "#0b1020"; VStr "#d4af37"; VStr "#e5e7eb"; VStr "#1d4ed8"].

(** The colours of a model (index.js 118-122). *)
Definition productColors (colorsSheet : list row) (model : string) : list jsval :=
  let cs := List.filter truthy
              (map (λ c : row, c.["color_hex"] ||| c.["hex"] ||| c.["color"])
                 (List.filter
                    (λ c : row, String.eqb
                       (normModel (c.["model"] ||| c.["product_id"] ||| c.["product"]))
                       model)
                    colorsSheet)) in
  match cs with
  | [] => defaultColors
  | _ => take 4 cs
  end.

(** The image override of a model (index.js 124-126). *)
Definition productImage (productsSheet : list row) (model : string) : jsval :=
  match List.find
          (λ p : row, String.eqb
             (normModel (p.["model"] ||| p.["product_id"] ||| p.["product"])) model)
          productsSheet with
  | Some ps => if truthy (ps.["image"] ||| ps.["img"])
               then ps.["image"] ||| ps.["img"] else VNull
  | None => VNull
  end.

(** [byModel.has(m)]. *)
Definition byModel_has (byModel : list baseProduct) (m : string) : bool :=
  existsb (λ b, String.eqb (b_model b) m) byModel.

Section Build.

(** The [n]-th call of [Math.random] returns [random n]. *)
Variable random : nat → Q.

(** The sheets read at the top of [buildCatalog]. *)
Variables colorsSheet productsSheet : list row.

(** [ensureProduct] (index.js 112-139) on the state it closes over: the
    [byModel] map and the number of draws made so far. *)
Definition ensureProduct (st : list baseProduct * nat) (r : vrow)
  : list baseProduct * nat :=
  let '(byModel, calls) := st in
  if byModel_has byModel (v_model r) then st
  else
    let rating := synthRating (random calls) in
    let reviews := synthReviews (random (S calls)) in
    (app byModel [ {| b_id := v_id r;
                      b_model := v_model r;
                      b_type := productType (v_model r);
                      b_rating := rating;
                      b_reviews := reviews;
                      b_colors := productColors colorsSheet (v_model r);
                      b_image := productImage productsSheet (v_model r) |} ],
     S (S calls)).

End Build.

(** An entry of [variants]. *)
Record variant : Type := Variant {
  price : jsval;
  currency : string
}.

(** The key built by [addVar]. *)
Definition variantKey (r : vrow) : string :=
  v_model r ++ "|" ++ condition_name (v_condition r) ++ "|"
  ++ numToString (v_storage_gb r) ++ "|" ++ v_market r.

(** [addVar] (index.js 145-148). *)
Definition addVar (variants : list (string * variant)) (r : vrow)
  : list (string * variant) :=
  obj_set variants (variantKey r)
    {| price := v_price r; currency := v_currency r |}.

(** An element of [products]. *)
Record product : Type := Product {
  p_id : string;
  p_model : string;
  p_type : string;
  p_rating : number;
  p_reviews : number;
  p_colors : list jsval;
  p_image : jsval;
  storages_usado : list number;
  storages_novo : list number
}.

(** The destructuring [[m,c,gb,mkt] = k.split('|')]: a missing part is
    [undefined]. *)
Definition key_part (k : string) (i : nat) : jsval :=
  match split "|" k !! i with
  | Some s => VStr s
  | None => VUndef
  end.

(** [x === s] for a string [s]. *)
Definition strict_eq_str (x : jsval) (s : string) : bool :=
  match x with
  | VStr t => String.eqb t s
  | _ => false
  end.

(** The test [m===p.model && mkt===market] on a key (index.js 159, 247). *)
Definition key_matches (model market k : string) : bool :=
  strict_eq_str (key_part k 0) model && strict_eq_str (key_part k 3) market.

(** The storage set of one condition (index.js 155-163). *)
Definition storSet (variants : list (string * variant)) (model market cond : string)
  : list number :=
  foldl (λ s k,
           if key_matches model market k && strict_eq_str (key_part k 1) cond
           then set_add s (ToNumber (key_part k 2)) else s)
        [] (obj_keys variants).

(** The body of the loop over [byModel.values()] (index.js 154-179):
    the product pushed, if any. *)
Definition productOf (variants : list (string * variant)) (market : string)
    (p : baseProduct) : option product :=
  let storSetUsed := storSet variants (b_model p) market "usado" in
  let storSetNew := storSet variants (b_model p) market "novo" in
  if (List.length storSetUsed =? 0)%nat && (List.length storSetNew =? 0)%nat then None
  else Some {| p_id := b_id p;
               p_model := b_model p;
               p_type := b_type p;
               p_rating := b_rating p;
               p_reviews := b_reviews p;
               p_colors := take 4 (b_colors p);
               p_image := b_image p ||| VStr ("/public/products/" ++ b_id p ++ ".png");
               storages_usado := array_sort num_sub storSetUsed;
               storages_novo := array_sort num_sub storSetNew |}.

Record catalog : Type := Catalog {
  products : list product;
  variants : list (string * variant)
}.

Definition buildCatalog (random : nat → Q) (wb : workbook) (market : string) : catalog :=
  let used := sheetToJson wb "prices_usados" in
  let novo := sheetToJson wb "prices_novos" in
  let colorsSheet := sheetToJson wb "colors" in
  let productsSheet := sheetToJson wb "products" in
  let usedRows := normRows market Usado used in
  let newRows := normRows market Novo novo in
  let byModel :=
    (foldl (ensureProduct random colorsSheet productsSheet) ([], O)
       (usedRows ++ newRows)%list).1 in
  let variants := foldl addVar (foldl addVar [] usedRows) newRows in
  {| products := omap (productOf variants market) byModel;
     variants := variants |}.

(** ** The featured handler (index.js 224-302) *)

(** An element of [items]. *)
Record item : Type := Item {
  it_id : string;
  it_model : string;
  it_image : jsval;
  min_price : option number;   (* [None] is [null] *)
  it_currency : string
}.

#[global] Instance Q_eq_dec : EqDecision Q.
Proof. solve_decision. Defined.
#[global] Instance number_eq_dec : EqDecision number.
Proof. solve_decision. Defined.
#[global] Instance jsval_eq_dec : EqDecision jsval.
Proof. solve_decision. Defined.
#[global] Instance item_eq_dec : EqDecision item.
Proof. solve_decision. Defined.

(** [minPriceForModel] (index.js 243-255). *)
Definition minPriceForModel (variants : list (string * variant)) (market model : string)
  : option number * string :=
  foldl (λ (acc : option number * string) k,
           if key_matches model market k then
             match obj_get variants k with
             | Some {| price := VNum n; currency := c |} =>
                 match acc.1 with
                 | None => (Some n, c)
                 | Some m => if num_ltb n m then (Some n, c) else acc
                 end
             | _ => acc
             end
           else acc)
        (None, "AOA") (obj_keys variants).

(** A [Set] of strings, in insertion order. *)
Definition strset_has (s : list string) (x : string) : bool :=
  existsb (String.eqb x) s.

Definition strset_add (s : list string) (x : string) : list string :=
  if strset_has s x then s else app s [x].

(** The second scan of the two price sheets (index.js 264-274), on the
    workbook read again from the same file. *)
Definition modelsAvailable (wb2 : workbook) (city : string) : list string :=
  let used := sheetToJson wb2 "prices_usados" in
  let novo := sheetToJson wb2 "prices_novos" in
  foldl (λ s (r : row),
           let model := normModel (r.["model"] ||| r.["Model"] ||| VStr "") in
           let disponibilidade :=
             toLowerCase (ToString (r.["disponibilidade"] ||| r.["Disponibilidade"]
                                    ||| VStr "")) in
           if negb (is_empty model) && includes disponibilidade city
           then strset_add s model else s)
        [] (app used novo).

(** [p.image?.startsWith('/') ? (baseUrl + p.image) : p.image]; [None] is the
    TypeError raised when [p.image] is neither a string nor null or
    undefined, hence has no [startsWith]. *)
Definition absoluteImage (baseUrl : string) (image : jsval) : option jsval :=
  match image with
  | VStr s => Some (if startsWith s "/" then VStr (baseUrl ++ s) else image)
  | VUndef | VNull => Some image
  | VNum _ | VBool _ => None
  end.

(** The callback of [map] (index.js 277-287). *)
Definition itemOf (variants : list (string * variant)) (market baseUrl : string)
    (p : product) : option item :=
  let '(min, currency) := minPriceForModel variants market (p_model p) in
  image ← absoluteImage baseUrl (p_image p);
  Some {| it_id := p_id p; it_model := p_model p; it_image := image;
          min_price := min; it_currency := currency |}.

(** [items] (index.js 277-288); [None] when a callback throws. *)
Definition featuredItems (cat : catalog) (available : list string)
    (market baseUrl : string) : option (list item) :=
  its ← mapM (itemOf (variants cat) market baseUrl)
           (List.filter (λ p, strset_has available (p_model p)) (products cat));
  Some (List.filter (λ it, bool_decide (min_price it ≠ None)) its).

(** [mapByModel.get(m)] for [mapByModel = new Map(items.map(it=>[it.model, it]))]:
    the last item of that model; keys are strings, so another kind of value
    finds nothing. *)
Definition mapByModel_get (items : list item) (m : jsval) : option item :=
  match m with
  | VStr s => List.find (λ it, String.eqb (it_model it) s) (rev items)
  | _ => None
  end.

(** [ordered] (index.js 292-294).  [ordered.includes(it)] compares object
    identities; items are compared by content, which is the same thing as
    long as no two items of [items] are equal (see [itemOf]: their models
    differ). *)
Definition orderItems (preferred : list jsval) (items : list item) : list item :=
  let ordered :=
    foldl (λ ordered m,
             match mapByModel_get items m with
             | Some it => app ordered [it]
             | None => ordered
             end) [] preferred in
  foldl (λ ordered it,
           if bool_decide (it ∈ ordered) then ordered else app ordered [it])
        ordered items.

(** [Math.max(1, Math.min(20, Number(q)||8))] (index.js 296). *)
Definition clampCount (q : jsval) : number :=
  let n := match Number64 q with                 (* [Number(q) || 8] *)
           | XNum m => if truthy (VNum m) then XNum m else XNum (Fin 8)
           | XInf negative => XInf negative
           end in
  match n with
  | XNum m => Math_max (Fin 1) (Math_min (Fin 20) m)
  | XInf false => Fin 20         (* [Math.max(1, Math.min(20, Infinity))] *)
  | XInf true => Fin 1           (* [Math.max(1, Math.min(20, -Infinity))] *)
  end.

(** [arr.slice(0, e)]: [e] is truncated to an integer, a negative one counts
    from the end. *)
Definition slice_to {A} (l : list A) (e : number) : list A :=
  match e with
  | NaN => []
  | Fin q =>
      let t := if Qle_bool 0 q then Qfloor q else Qceiling q in
      if (t <? 0)%Z then take (Z.to_nat (Z.of_nat (List.length l) + t)) l
      else take (Z.to_nat t) l
  end.

Inductive response : Type :=
  | Json (market : string) (count : number) (items : list item)
  | Error500 (error : string).

(** The handler.  [wb] is what [loadWorkbook] returns ([None] for [null]),
    [featuredModels] the [models] array of [config/featured.json] (empty when
    there is no such file or array), [qmarket], [qcity], [qcount] the query
    parameters and [baseUrl] the scheme and host of the request. *)
Definition featured (random : nat → Q) (wb : option workbook)
    (featuredModels : list jsval) (qmarket qcity qcount : jsval)
    (baseUrl : string) : response :=
  let market := toUpperCase (ToString (qmarket ||| VStr "AO")) in
  let city := toLowerCase (ToString (qcity ||| VStr "Luanda")) in
  match wb with
  | None => Error500 "XLSX not found"
  | Some wb =>
      let catalog := buildCatalog random wb market in
      let preferred := List.filter truthy featuredModels in
      let available := modelsAvailable wb city in
      match featuredItems catalog available market baseUrl with
      | None => Error500 "failed_featured"
      | Some items =>
          let ordered := orderItems preferred items in
          let count := clampCount qcount in
          Json market count (slice_to ordered count)
      end
  end.

(** ** The specification's wording, for comparison *)

(** [parseLocalizedNumber] as section 4.1 of the specification words it:
    every period is removed, then the first comma becomes the decimal
    point. *)
Definition parseLocalizedNumber (v : jsval) : jsval :=
  match v with
  | VNum _ => v
  | _ =>
      if negb (truthy v) then VNull
      else
        let s := replace_first "," "."
                   (string_filter (λ c, negb (Ascii.eqb c "."))
                      (string_filter price_char (ToString v))) in
        match StringToNumber s with
        | NaN => VNull
        | n => VNum n
        end
  end.

(** The ordering of step 5 of section 4.5: the preferred models that are
    present, in list order, then the other items in their original order. *)
Definition preferredFirst (preferred : list jsval) (items : list item) : list item :=
  app (omap (mapByModel_get items) preferred)
      (List.filter (λ it, bool_decide (VStr (it_model it) ∉ preferred)) items).

(** The rows kept by [buildCatalog]: [[...usedRows, ...newRows]]. *)
Definition retainedRows (wb : workbook) (market : string) : list vrow :=
  app (normRows market Usado (sheetToJson wb "prices_usados"))
      (normRows market Novo (sheetToJson wb "prices_novos")).

(** [b] is the record [ensureProduct] builds for the row [r] when [n] draws
    have been made. *)
Definition made_from (random : nat → Q) (colorsSheet productsSheet : list row)
    (b : baseProduct) (r : vrow) (n : nat) : Prop :=
  b = {| b_id := v_id r;
         b_model := v_model r;
         b_type := productType (v_model r);
         b_rating := synthRating (random n);
         b_reviews := synthReviews (random (S n));
         b_colors := productColors colorsSheet (v_model r);
         b_image := productImage productsSheet (v_model r) |}.

(** The key separator does not occur in [s]. *)
Definition no_pipe (s : string) : bool :=
  string_forall (λ c, negb (Ascii.eqb c "|")) s.


(** The [byModel] map at the end of [[...usedRows, ...newRows].forEach(ensureProduct)]. *)
Definition byModelOf (random : nat → Q) (wb : workbook) (market : string)
  : list baseProduct :=
  (foldl (ensureProduct random (sheetToJson wb "colors") (sheetToJson wb "products"))
     ([], O) (retainedRows wb market)).1.

(** [p.storages[c]]. *)
Definition storages (c : condition) (p : product) : list number :=
  match c with Usado => storages_usado p | Novo => storages_novo p end.

(** The characters [String(n)] is made of. *)
Definition number_char (c : ascii) : bool :=
  is_digit c || existsb (Ascii.eqb c) (list_ascii_of_string "-.e+Na").

(** Two numbers are the same element of a [Set] exactly when their
    canonical forms are equal. *)
Definition canon (n : number) : number :=
  match n with
  | NaN => NaN
  | Fin q => Fin (Qred q)
  end.



(** No model and no market of the rows holds the separator of the keys. *)
Definition pipe_free (rows : list vrow) : bool :=
  forallb (λ r, no_pipe (v_model r) && no_pipe (v_market r)) rows.

(** What [minPriceForModel] has computed once it has visited the keys
    [keys] of [vs], [acc] being its [(min, currency)]: no key matched, or
    [min] is the price of a matching entry whose currency is [currency], and
    no matching entry is cheaper. *)
Definition min_over (vs : list (string * variant)) (market model : string)
    (keys : list string) (acc : option number * string) : Prop :=
  match acc.1 with
  | None => ∀ k, k ∈ keys → key_matches model market k = false
  | Some m =>
      ∃ q, m = Fin q ∧
        (∃ k v, k ∈ keys ∧ key_matches model market k = true ∧
                obj_get vs k = Some v ∧ price v = VNum (Fin q) ∧ currency v = acc.2) ∧
        (∀ k v q', k ∈ keys → key_matches model market k = true →
                   obj_get vs k = Some v → price v = VNum (Fin q') → (q <= q')%Q)
  end.

(** A cell holding a string. *)
Definition is_string (v : jsval) : bool :=
  match v with VStr _ => true | _ => false end.

(** The sheet a condition is read from. *)
Definition sheet_of (c : condition) : string :=
  match c with Usado => "prices_usados" | Novo => "prices_novos" end.

(** The count of step 6 of section 4.5, as the specification words it: the
    requested count clamped to [[1, 20]], 8 when the request gives none. *)
Definition clampedCount (q : jsval) : number :=
  match q with
  | VUndef => Fin 8
  | _ => Math_max (Fin 1) (Math_min (Fin 20) (ToNumber q))
  end.

Fixpoint count_char (c : ascii) (s : string) : nat :=
  match s with
  | EmptyString => O
  | String a s' => (if Ascii.eqb a c then 1 else 0) + count_char c s'
  end.

(** ** The other functions of index.js *)

(** [detectColorKeyFromHex] (index.js 60-73). *)
Definition detectColorKeyFromHex (hex : jsval) : string :=
  if negb (truthy hex) then "default"
  else
    let h := toLowerCase (ToString hex) in
    if includes h "d4af37" then "gold"
    else if includes h "ffd700" then "gold"
    else if includes h "aaa" || includes h "silver" then "silver"
    else if includes h "000" || includes h "0b1020" then "black"
    else if includes h "e5e7eb" || includes h "fff" then "white"
    else if includes h "1d4ed8" || includes h "00f" || includes h "1e40af" then "blue"
    else if includes h "dc2626" || includes h "f00" then "red"
    else if includes h "16a34a" || includes h "0f0" then "green"
    else if includes h "949494" || includes h "808080" then "titanium"
    else "default".

(** The keys [detectColorKeyFromHex] can return. *)
Definition colorKeys : list string :=
  ["gold"; "silver"; "black"; "white"; "blue"; "red"; "green"; "titanium"; "default"].

(** *** Regular expressions without groups, as [RegExp.prototype.test] on an
    anchored pattern decides them: by derivatives. *)

Inductive regex : Type :=
  | RNone
  | REps
  | RClass (p : ascii → bool)
  | RCat (r1 r2 : regex)
  | RAlt (r1 r2 : regex)
  | RStar (r : regex).

(** [r+]. *)
Definition RPlus (r : regex) : regex := RCat r (RStar r).

(** The one character [c]. *)
Definition RChar (c : ascii) : regex := RClass (Ascii.eqb c).

Fixpoint nullable (r : regex) : bool :=
  match r with
  | RNone => false
  | REps => true
  | RClass _ => false
  | RCat r1 r2 => nullable r1 && nullable r2
  | RAlt r1 r2 => nullable r1 || nullable r2
  | RStar _ => true
  end.

Fixpoint deriv (c : ascii) (r : regex) : regex :=
  match r with
  | RNone => RNone
  | REps => RNone
  | RClass p => if p c then REps else RNone
  | RCat r1 r2 =>
      if nullable r1 then RAlt (RCat (deriv c r1) r2) (deriv c r2)
      else RCat (deriv c r1) r2
  | RAlt r1 r2 => RAlt (deriv c r1) (deriv c r2)
  | RStar r1 => RCat (deriv c r1) (RStar r1)
  end.

(** [/^r$/.test(s)]. *)
Fixpoint regex_test (r : regex) (s : string) : bool :=
  match s with
  | EmptyString => nullable r
  | String c s' => regex_test (deriv c r) s'
  end.

(** The words of a regular expression. *)
Inductive regex_matches : regex → string → Prop :=
  | match_eps : regex_matches REps EmptyString
  | match_class p c : p c = true → regex_matches (RClass p) (String c EmptyString)
  | match_cat r1 r2 s1 s2 :
      regex_matches r1 s1 → regex_matches r2 s2 → regex_matches (RCat r1 r2) (s1 ++ s2)
  | match_alt_l r1 r2 s : regex_matches r1 s → regex_matches (RAlt r1 r2) s
  | match_alt_r r1 r2 s : regex_matches r2 s → regex_matches (RAlt r1 r2) s
  | match_star_nil r : regex_matches (RStar r) EmptyString
  | match_star_app r s1 s2 :
      regex_matches r s1 → regex_matches (RStar r) s2 → regex_matches (RStar r) (s1 ++ s2).

(** The class [[^\s@]]. *)
Definition email_char (c : ascii) : bool := negb (is_space c) && negb (Ascii.eqb c "@").

(** [/^[^\s@]+@[^\s@]+\.[^\s@]+$/] (index.js 314). *)
Definition emailRegex : regex :=
  RCat (RPlus (RClass email_char))
    (RCat (RChar "@")
       (RCat (RPlus (RClass email_char))
          (RCat (RChar ".") (RPlus (RClass email_char))))).

(** *** The subscription endpoint (index.js 309-327) *)

(** The double quote character and the line feed. *)
Definition quote_char : ascii := "034".
Definition newline : string := String "010" EmptyString.

(** The [replace] of the callback of [row.map] (index.js 320): every double
    quote is doubled. *)
Fixpoint double_quotes (s : string) : string :=
  match s with
  | EmptyString => EmptyString
  | String c s' =>
      if Ascii.eqb c quote_char then String c (String c (double_quotes s'))
      else String c (double_quotes s')
  end.

(** [arr.join(sep)]. *)
Fixpoint join (sep : string) (l : list string) : string :=
  match l with
  | [] => EmptyString
  | [x] => x
  | x :: l' => x ++ sep ++ join sep l'
  end.

(** [req.body?.k]. *)
Definition body_prop (body : option row) (k : string) : jsval :=
  match body with
  | Some b => b.[k]
  | None => VUndef
  end.

Definition csvHeader : string := "timestamp,name,email,phone,user_agent" ++ newline.

Inductive subscribeResponse : Type :=
  | SubscribeOk                                  (* [{ok:true}] *)
  | SubscribeError (status : nat) (error : string).

(** The line appended for a request (index.js 319-320), without the header. *)
Definition csvLine (now name email phone userAgent : string) : string :=
  join "," (map double_quotes [now; name; email; phone; userAgent]) ++ newline.

(** The handler on the state it touches: [file] is the content of
    [data/subscribers.csv] ([None] when the file does not exist), [now] is
    [new Date().toISOString()], [userAgent] the request header.  Returns the
    response and the file afterwards.  ([fs.appendFileSync] is taken to
    succeed.) *)
Definition subscribe (file : option string) (now : string) (body : option row)
    (userAgent : option string) : subscribeResponse * option string :=
  let name := trim (ToString (body_prop body "name" ||| VStr "")) in
  let email := toLowerCase (trim (ToString (body_prop body "email" ||| VStr ""))) in
  let phone := trim (ToString (body_prop body "phone" ||| VStr "")) in
  if is_empty email || negb (regex_test emailRegex email) then
    (SubscribeError 400 "invalid_email", file)
  else
    let hdr := match file with None => true | Some _ => false end in
    let line := (if hdr then csvHeader else "")
                ++ csvLine now name email phone (default "" userAgent) in
    (SubscribeOk, Some (default "" file ++ line)).

(** All the requests of a list, one after the other; each with its time,
    body and user agent. *)
Definition subscribeAll (file : option string)
    (reqs : list (string * option row * option string)) : option string :=
  foldl (λ f '(now, body, ua), (subscribe f now body ua).2) file reqs.

(** ** Further notions used in the statements *)

(** The elements of a list in the order of their first occurrence. *)
Fixpoint firstSeen (l : list string) : list string :=
  match l with
  | [] => []
  | x :: l' => x :: List.filter (λ y, negb (String.eqb y x)) (firstSeen l')
  end.

(** The line a request adds to [data/subscribers.csv] when its email is
    accepted. *)
Definition subscribedLine (now : string) (body : option row) (userAgent : option string)
  : option string :=
  let email := toLowerCase (trim (ToString (body_prop body "email" ||| VStr ""))) in
  if regex_test emailRegex email then
    Some (csvLine now (trim (ToString (body_prop body "name" ||| VStr ""))) email
            (trim (ToString (body_prop body "phone" ||| VStr ""))) (default "" userAgent))
  else None.

(** A text of ASCII characters: on such a text the case mappings and the
    white-space class above are those of the run-time system
    ([toLowerCase], [toUpperCase], [trim], [\s], [Number]). *)
Definition is_ascii_text (s : string) : bool :=
  string_forall (λ c, (N_of_ascii c <? 128)%N) s.

(** * Properties *)

(** ** safeNumber *)

Lemma safeNumber_examples :
  safeNumber (VStr "1.299,50") = VNum (Fin (2599 # 2)) ∧
  safeNumber (VStr "") = VNull ∧
  safeNumber (VNum (Fin 42)) = VNum (Fin 42).
Proof. repeat split; vm_compute; reflexivity. Qed.

Lemma safeNumber_number n : safeNumber (VNum n) = VNum n.
Proof. reflexivity. Qed.

Lemma safeNumber_falsy v : truthy v = false → (∀ n, v ≠ VNum n) → safeNumber v = VNull.
Proof. intros Hv Hn. destruct v; simpl in *; try rewrite Hv; try done. by destruct (Hn n). Qed.

Lemma string_filter_absent c s :
  count_char c s = 0 → string_filter (λ a, negb (Ascii.eqb a c)) s = s.
Proof.
  induction s as [|b s IH]; simpl; [done|].
  destruct (Ascii.eqb b c); simpl; [intros; lia|]. intros H. f_equal. by apply IH.
Qed.

Lemma replace_first_at_most_one c s :
  (count_char c s ≤ 1)%nat →
  replace_first c "" s = string_filter (λ a, negb (Ascii.eqb a c)) s.
Proof.
  induction s as [|a s IH]; simpl; [done|].
  destruct (Ascii.eqb a c) eqn:E; simpl; intros H.
  - cbn. symmetry. apply (string_filter_absent c s). clear -H. lia.
  - f_equal. by apply IH.
Qed.

(** With at most one period left after the stripping, the code is the
    function the specification describes. *)
Lemma safeNumber_one_period v :
  (count_char "." (string_filter price_char (ToString v)) ≤ 1)%nat →
  safeNumber v = parseLocalizedNumber v.
Proof.
  intros H. unfold safeNumber, parseLocalizedNumber.
  by rewrite (replace_first_at_most_one "." _ H).
Qed.

(** C1.  [safeNumber] removes only the first period of the stripped text:
    on ["1.250.000,00"] the second period survives, the text read by
    [Number] is ["1250.000.00"], and the result is [null], where removing
    every period, as the specification says, gives 1250000. *)
Theorem safeNumber_second_period_survives :
  safeNumber (VStr "1.250.000,00") = VNull ∧
  parseLocalizedNumber (VStr "1.250.000,00") = VNum (Fin 1250000).
Proof. split; vm_compute; reflexivity. Qed.

(** ** Synthesised rating and reviews *)

Lemma Qfloor_bounds (x : Q) (lo hi : Z) :
  (inject_Z lo <= x)%Q → (x < inject_Z hi)%Q → (lo ≤ Qfloor x < hi)%Z.
Proof.
  intros Hlo Hhi. split.
  - rewrite <- (Qfloor_Z lo). by apply Qfloor_resp_le.
  - apply Z.lt_nge. intros Hge.
    assert (inject_Z hi <= x)%Q; [|lra].
    eapply Qle_trans; [|apply Qfloor_le]. by rewrite <- Zle_Qle.
Qed.

Lemma Qle_bool_inject_Z (a b : Z) :
  Qle_bool (inject_Z a) (inject_Z b) = (a <=? b)%Z.
Proof. unfold Qle_bool. simpl. by rewrite !Z.mul_1_r. Qed.

(** *** Rounding to binary64 *)

Lemma round_half_even_cases x :
  round_half_even x = Qfloor x ∨ round_half_even x = (Qfloor x + 1)%Z.
Proof.
  unfold round_half_even.
  destruct (Qcompare _ _); [destruct (Z.even _)|..]; auto.
Qed.

Lemma round_half_even_comp x y : (x == y)%Q → round_half_even x = round_half_even y.
Proof.
  intros E. unfold round_half_even. rewrite (Qfloor_comp _ _ E).
  assert (E' : (x - inject_Z (Qfloor y) == y - inject_Z (Qfloor y))%Q) by (by rewrite E).
  by rewrite (Qcompare_comp _ _ E' (1 # 2)%Q (1 # 2)%Q (Qeq_refl _)).
Qed.

Lemma round_half_even_Z z : round_half_even (inject_Z z) = z.
Proof.
  unfold round_half_even. rewrite Qfloor_Z.
  destruct (Qcompare_spec (inject_Z z - inject_Z z) (1 # 2)); [lra|done|lra].
Qed.

Lemma round_half_even_mono x y :
  (x <= y)%Q → (round_half_even x ≤ round_half_even y)%Z.
Proof.
  intros Hxy. pose proof (Qfloor_resp_le _ _ Hxy) as Hf.
  destruct (Z.eq_dec (Qfloor x) (Qfloor y)) as [E|Hne].
  - unfold round_half_even. rewrite E.
    destruct (Qcompare_spec (x - inject_Z (Qfloor y)) (1 # 2)) as [Hx|Hx|Hx];
      destruct (Qcompare_spec (y - inject_Z (Qfloor y)) (1 # 2)) as [Hy|Hy|Hy];
      try destruct (Z.even (Qfloor y)); try lia; lra.
  - destruct (round_half_even_cases x) as [->| ->];
      destruct (round_half_even_cases y) as [->| ->]; lia.
Qed.

Lemma pow2_pos e : (0 < 2 ^ e)%Q.
Proof. by apply Qpower_0_lt. Qed.

Lemma pow2_plus a b : (2 ^ (a + b) == 2 ^ a * 2 ^ b)%Q.
Proof. by apply Qpower_plus. Qed.

Lemma pow2_Z n : (0 ≤ n)%Z → (inject_Z (2 ^ n) == 2 ^ n)%Q.
Proof. intros H. by rewrite Zpower_Qpower. Qed.

Lemma pow2_le a b : (a ≤ b)%Z → (2 ^ a <= 2 ^ b)%Q.
Proof. intros H. apply Qpower_le_compat_l; [done|lra]. Qed.

Lemma exponent64_ge q : (-1022 ≤ exponent64 q)%Z.
Proof. unfold exponent64. pose proof (Z.log2_nonneg (Qfloor (Qabs q * inject_Z (2 ^ 1022)))). lia. Qed.

Lemma exponent64_upper q : (Qabs q < 2 ^ (exponent64 q + 1))%Q.
Proof.
  unfold exponent64. set (P := inject_Z (2 ^ 1022)).
  set (m := Qfloor (Qabs q * P)). set (l := Z.log2 m).
  assert (HP : (P == 2 ^ 1022)%Q) by (by apply pow2_Z).
  assert (HP0 : (0 < P)%Q) by (rewrite HP; apply pow2_pos).
  assert (Hm0 : (0 ≤ m)%Z).
  { rewrite <- (Qfloor_Z 0). apply Qfloor_resp_le.
    apply Qmult_le_0_compat; [apply Qabs_nonneg|lra]. }
  assert (Hl0 : (0 ≤ l)%Z) by apply Z.log2_nonneg.
  assert (Hm : (m + 1 ≤ 2 ^ (l + 1))%Z).
  { destruct (Z.eq_dec m 0) as [E|Hne].
    - rewrite E. pose proof (Z.pow_pos_nonneg 2 (l + 1)). 
      assert (2 ^ 1 ≤ 2 ^ (l + 1))%Z by (apply Z.pow_le_mono_r; lia). lia.
    - pose proof (Z.log2_spec m) as Hs. unfold l. rewrite <- Z.add_1_r in Hs. lia. }
  assert (Hlt : (Qabs q * P < inject_Z (2 ^ (l + 1)))%Q).
  { eapply Qlt_le_trans; [apply (Qlt_floor (Qabs q * P))|].
    fold m. by rewrite <- Zle_Qle. }
  rewrite pow2_Z in Hlt by lia.
  replace (l + 1)%Z with ((l - 1022 + 1) + 1022)%Z in Hlt by lia.
  rewrite pow2_plus, <- HP in Hlt.
  by apply Qmult_lt_r in Hlt.
Qed.

Lemma exponent64_lower q :
  (-1022 < exponent64 q)%Z → (2 ^ exponent64 q <= Qabs q)%Q.
Proof.
  unfold exponent64. set (P := inject_Z (2 ^ 1022)).
  set (m := Qfloor (Qabs q * P)). set (l := Z.log2 m). intros Hl.
  assert (HP : (P == 2 ^ 1022)%Q) by (by apply pow2_Z).
  assert (HP0 : (0 < P)%Q) by (rewrite HP; apply pow2_pos).
  assert (Hm : (0 < m)%Z).
  { destruct (Z.lt_ge_cases 0 m) as [?|Hle]; [done|].
    unfold l in Hl. rewrite (Z.log2_nonpos m) in Hl by done. lia. }
  pose proof (Z.log2_spec m Hm) as [Hs _]. fold l in Hs.
  assert (Hle : (inject_Z (2 ^ l) <= Qabs q * P)%Q).
  { eapply Qle_trans; [|apply (Qfloor_le (Qabs q * P))]. fold m. by rewrite <- Zle_Qle. }
  rewrite pow2_Z in Hle by lia.
  replace l with ((l - 1022) + 1022)%Z in Hle at 1 by lia.
  rewrite pow2_plus, <- HP in Hle.
  by apply Qmult_le_r in Hle.
Qed.

Lemma exponent64_mono x y :
  (Qabs x <= Qabs y)%Q → (exponent64 x ≤ exponent64 y)%Z.
Proof.
  intros H. unfold exponent64.
  assert (Qfloor (Qabs x * inject_Z (2 ^ 1022)) ≤ Qfloor (Qabs y * inject_Z (2 ^ 1022)))%Z.
  { apply Qfloor_resp_le. apply Qmult_le_compat_r; [done|].
    rewrite pow2_Z by done. apply Qlt_le_weak, pow2_pos. }
  pose proof (Z.log2_le_mono _ _ H0). lia.
Qed.

Lemma exponent64_comp x y : (x == y)%Q → exponent64 x = exponent64 y.
Proof.
  intros E. unfold exponent64. f_equal. f_equal. apply Qfloor_comp. by rewrite E.
Qed.

(** The multiple of [2^e] nearest to [x]. *)
Lemma grid_mono e x y :
  (x <= y)%Q →
  (inject_Z (round_half_even (x / 2 ^ e)) * 2 ^ e
   <= inject_Z (round_half_even (y / 2 ^ e)) * 2 ^ e)%Q.
Proof.
  intros H. pose proof (pow2_pos e) as Hp.
  apply Qmult_le_compat_r; [|lra].
  rewrite <- Zle_Qle. apply round_half_even_mono.
  apply Qmult_le_compat_r; [done|]. apply Qlt_le_weak, Qinv_lt_0_compat, Hp.
Qed.

Lemma grid_pow2 e j :
  (e ≤ j)%Z → (inject_Z (round_half_even (2 ^ j / 2 ^ e)) * 2 ^ e == 2 ^ j)%Q.
Proof.
  intros H. pose proof (pow2_pos e) as Hp.
  assert (E : (2 ^ j / 2 ^ e == inject_Z (2 ^ (j - e)))%Q).
  { rewrite pow2_Z by lia. rewrite Qpower_minus by done. reflexivity. }
  rewrite (round_half_even_comp _ _ E), round_half_even_Z.
  rewrite pow2_Z by lia. rewrite <- pow2_plus. by replace (j - e + e)%Z with j by lia.
Qed.

Lemma round64_comp x y : (x == y)%Q → round64 x = round64 y.
Proof.
  intros E. unfold round64. rewrite (exponent64_comp _ _ E).
  apply Qred_complete.
  rewrite (round_half_even_comp (x / _) (y / 2 ^ (exponent64 y - 52))); [done|].
  by rewrite E.
Qed.

Lemma Qeq_eq_round64 x y : (x == y)%Q → (round64 x == round64 y)%Q.
Proof. intros E. by rewrite (round64_comp _ _ E). Qed.

Lemma round64_mono x y : (0 <= x)%Q → (x <= y)%Q → (round64 x <= round64 y)%Q.
Proof.
  intros H0 Hxy. unfold round64. rewrite !Qred_correct.
  assert (Hax : (Qabs x == x)%Q) by (by apply Qabs_pos).
  assert (Hay : (Qabs y == y)%Q) by (apply Qabs_pos; lra).
  assert (He : (exponent64 x ≤ exponent64 y)%Z).
  { apply exponent64_mono. by rewrite Hax, Hay. }
  destruct (Z.eq_dec (exponent64 x) (exponent64 y)) as [E|Hne].
  - rewrite E. by apply grid_mono.
  - pose proof (exponent64_upper x) as Hu. rewrite Hax in Hu.
    pose proof (exponent64_ge x) as Hge.
    pose proof (exponent64_lower y) as Hl. rewrite Hay in Hl.
    eapply Qle_trans; [apply (grid_mono _ x (2 ^ (exponent64 x + 1))); lra|].
    rewrite grid_pow2 by lia.
    eapply Qle_trans; [apply (pow2_le _ (exponent64 y)); lia|].
    rewrite <- (grid_pow2 (exponent64 y - 52) (exponent64 y)) by lia.
    apply grid_mono. apply Hl. lia.
Qed.

Lemma round64_between lo hi x :
  (0 <= lo)%Q → (lo <= x)%Q → (x <= hi)%Q →
  (round64 lo <= round64 x)%Q ∧ (round64 x <= round64 hi)%Q.
Proof.
  intros H0 Hlo Hhi. split; apply round64_mono; lra.
Qed.

(** A binary64 value below 1 is at most [1 - 2^-53]. *)
Lemma binary64_below_1 u :
  is_binary64 u = true → (0 <= u)%Q → (u < 1)%Q → (u <= 1 - 2 ^ (-53))%Q.
Proof.
  intros [Hu _]%andb_true_iff H0 H1. apply Qeq_bool_iff in Hu.
  assert (Ha : (Qabs u == u)%Q) by (by apply Qabs_pos).
  pose proof (exponent64_upper u) as Hup. rewrite Ha in Hup.
  pose proof (exponent64_lower u) as Hlow. rewrite Ha in Hlow.
  assert (He : (exponent64 u ≤ -1)%Z).
  { apply Z.lt_succ_r. apply Z.lt_nge. intros Hge.
    assert (2 ^ 0 <= 2 ^ exponent64 u)%Q by (apply pow2_le; lia).
    assert (2 ^ exponent64 u <= u)%Q by (apply Hlow; lia).
    change (2 ^ 0)%Q with 1%Q in *. lra. }
  change (1 - 2 ^ (-53))%Q with (1 - (1 # 9007199254740992))%Q.
  destruct (Z.eq_dec (exponent64 u) (-1)) as [E|Hne].
  - unfold round64 in Hu. rewrite Qred_correct, E in Hu.
    change (2 ^ (-1 - 52))%Q with (1 # 9007199254740992)%Q in Hu.
    set (m := round_half_even _) in Hu.
    assert (Hm : (m < 9007199254740992)%Z).
    { apply Z.lt_nge. intros Hge. rewrite Zle_Qle in Hge.
      change (inject_Z 9007199254740992) with 9007199254740992%Q in Hge. lra. }
    assert (Hm' : (m ≤ 9007199254740991)%Z) by lia.
    rewrite Zle_Qle in Hm'.
    change (inject_Z 9007199254740991) with 9007199254740991%Q in Hm'. lra.
  - assert (2 ^ (exponent64 u + 1) <= 2 ^ (-1))%Q by (apply pow2_le; lia).
    change (2 ^ (-1))%Q with (1 # 2)%Q in *. lra.
Qed.

(** *** The synthesized rating and reviews *)

Lemma synthRating_eq (u : Q) :
  synthRating u
  = Fin (round64 (inject_Z (Qfloor (round64 (round64 (4 + round64 u) * 10) + (1 # 2)))
                  / 10)).
Proof.
  unfold synthRating, fl, num_add, num_mul, Math_round, num_div, num_of_Z.
  change (Qeq_bool 10 0) with false. cbv beta iota.
  f_equal. apply round64_comp. rewrite Qred_correct.
  apply Qdiv_comp; [|reflexivity].
  apply inject_Z_injective. apply Qfloor_comp.
  apply Qplus_comp; [|reflexivity].
  apply Qeq_eq_round64. rewrite Qred_correct.
  apply Qmult_comp; [|reflexivity].
  apply Qeq_eq_round64. rewrite Qred_correct.
  apply Qplus_comp; [reflexivity|].
  apply Qeq_eq_round64. by rewrite Qred_correct, Qmult_1_r.
Qed.

Lemma synthReviews_eq (u : Q) :
  synthReviews u = num_of_Z (Z.min 250 (Qfloor (round64 (50 + round64 (u * 200))))).
Proof.
  unfold synthReviews, fl, Math_floor, num_add, num_mul, Math_min, num_of_Z.
  assert (E : Qfloor (round64 (Qred (50 + round64 (Qred (u * 200)))))
              = Qfloor (round64 (50 + round64 (u * 200)))).
  { f_equal. apply round64_comp. rewrite Qred_correct.
    apply Qplus_comp; [reflexivity|].
    apply Qeq_eq_round64. by rewrite Qred_correct. }
  rewrite E. set (z := Qfloor _).
  change (Qle_bool 250 (inject_Z z)) with (Qle_bool (inject_Z 250) (inject_Z z)).
  rewrite Qle_bool_inject_Z.
  destruct (Z.leb_spec 250 z); [by rewrite Z.min_l | by rewrite Z.min_r by lia].
Qed.

(** The rating is the binary64 value nearest to a number of tenths between
    40 and 50. *)
Lemma synthRating_range (u : Q) :
  is_binary64 u = true → (0 <= u)%Q → (u < 1)%Q →
  ∃ z, (40 ≤ z ≤ 50)%Z ∧ synthRating u = Fin (round64 (inject_Z z / 10)) ∧
       (4 <= round64 (inject_Z z / 10))%Q ∧ (round64 (inject_Z z / 10) <= 5)%Q.
Proof.
  intros Hb H0 H1. pose proof (binary64_below_1 u Hb H0 H1) as Hu.
  change (1 - 2 ^ (-53))%Q with (1 - (1 # 9007199254740992))%Q in Hu.
  rewrite synthRating_eq.
  destruct (round64_between 0 (1 - (1 # 9007199254740992)) u) as [Ha0 Ha1]; [lra..|].
  change (round64 0) with 0%Q in Ha0.
  change (round64 (1 - (1 # 9007199254740992)))
    with (9007199254740991 # 9007199254740992)%Q in Ha1.
  set (a := round64 u) in *.
  destruct (round64_between 4 (4 + (9007199254740991 # 9007199254740992)) (4 + a))
    as [Hb0 Hb1]; [lra..|].
  change (round64 4) with 4%Q in Hb0.
  change (round64 (4 + (9007199254740991 # 9007199254740992))) with 5%Q in Hb1.
  set (b := round64 (4 + a)) in *.
  destruct (round64_between 40 50 (b * 10)) as [Hc0 Hc1]; [lra..|].
  change (round64 40) with 40%Q in Hc0. change (round64 50) with 50%Q in Hc1.
  set (c := round64 (b * 10)) in *.
  set (z := Qfloor (c + (1 # 2))).
  assert (40 ≤ z < 51)%Z as [Hz0 Hz1].
  { apply Qfloor_bounds;
      [change (inject_Z 40) with 40%Q | change (inject_Z 51) with 51%Q]; lra. }
  assert (Hz1' : (z ≤ 50)%Z) by lia.
  exists z. split; [lia|]. split; [done|].
  rewrite Zle_Qle in Hz0, Hz1'.
  change (inject_Z 40) with 40%Q in Hz0. change (inject_Z 50) with 50%Q in Hz1'.
  destruct (round64_between 4 5 (inject_Z z / 10)) as [Hr0 Hr1];
    [lra|apply Qle_shift_div_l; lra|apply Qle_shift_div_r; lra|].
  change (round64 4) with 4%Q in Hr0. change (round64 5) with 5%Q in Hr1.
  done.
Qed.

(** The number of reviews is an integer from 50 to 249. *)
Lemma synthReviews_range (u : Q) :
  is_binary64 u = true → (0 <= u)%Q → (u < 1)%Q →
  ∃ z, synthReviews u = num_of_Z z ∧ (50 ≤ z < 250)%Z.
Proof.
  intros Hb H0 H1. pose proof (binary64_below_1 u Hb H0 H1) as Hu.
  change (1 - 2 ^ (-53))%Q with (1 - (1 # 9007199254740992))%Q in Hu.
  rewrite synthReviews_eq. eexists. split; [done|].
  destruct (round64_between 0 ((1 - (1 # 9007199254740992)) * 200) (u * 200))
    as [Ha0 Ha1]; [lra..|].
  change (round64 0) with 0%Q in Ha0.
  change (round64 ((1 - (1 # 9007199254740992)) * 200))
    with (7036874417766399 # 35184372088832)%Q in Ha1.
  set (a := round64 (u * 200)) in *.
  destruct (round64_between 50 (50 + (7036874417766399 # 35184372088832)) (50 + a))
    as [Hb0 Hb1]; [lra..|].
  change (round64 50) with 50%Q in Hb0.
  change (round64 (50 + (7036874417766399 # 35184372088832)))
    with (8796093022207999 # 35184372088832)%Q in Hb1.
  set (b := round64 (50 + a)) in *.
  assert (50 ≤ Qfloor b < 250)%Z.
  { apply Qfloor_bounds;
      [change (inject_Z 50) with 50%Q | change (inject_Z 250) with 250%Q]; lra. }
  lia.
Qed.

(** C9, the claim as stated fails: the draw 31/32, a binary64 value, gives
    the rating 4.96875, which [Math.round(rating*10)/10] rounds to 5.0,
    outside [[4.0, 5.0)].  Every step of this computation is exact in
    binary64. *)
Lemma synthRating_reaches_5 :
  ¬ (∀ u, (0 <= u)%Q ∧ (u < 1)%Q → ∃ q, synthRating u = Fin q ∧ (4 <= q)%Q ∧ (q < 5)%Q).
Proof.
  intros H. destruct (H (31 # 32)%Q) as (q & Hq & _ & Hlt); [split; lra|].
  vm_compute in Hq. injection Hq as <-. lra.
Qed.

(** C9, as amended: for every binary64 draw in [[0,1)] the rating is the
    binary64 value nearest to a number of tenths between 40 and 50, hence in
    the closed range [[4.0, 5.0]], and reviews is an integer in
    [[50, 250)].  The arithmetic is that of binary64. *)
Theorem synth_ranges (u : Q) :
  is_binary64 u = true → (0 <= u)%Q → (u < 1)%Q →
  (∃ z, (40 ≤ z ≤ 50)%Z ∧ synthRating u = Fin (round64 (inject_Z z / 10)) ∧
        (4 <= round64 (inject_Z z / 10))%Q ∧ (round64 (inject_Z z / 10) <= 5)%Q) ∧
  (∃ z, synthReviews u = num_of_Z z ∧ (50 ≤ z < 250)%Z).
Proof.
  intros Hb H0 H1. split.
  - by apply synthRating_range.
  - by apply synthReviews_range.
Qed.

Lemma synth_ranges_witness :
  (∃ z, (40 ≤ z ≤ 50)%Z ∧
        synthRating (1 # 2) = Fin (round64 (inject_Z z / 10)) ∧
        (4 <= round64 (inject_Z z / 10))%Q ∧ (round64 (inject_Z z / 10) <= 5)%Q) ∧
  (∃ z, synthReviews (1 # 2) = num_of_Z z ∧ (50 ≤ z < 250)%Z).
Proof. apply (synth_ranges (1 # 2)%Q); [reflexivity|lra|lra]. Defined.

(** The rounding matters: the draw 0.5499999999999999 (the binary64 value
    [4953959590107545 / 2^53]) gets the rating 4.6 and 160 reviews, where
    exact arithmetic would give 4.5 and 159. *)
Example synth_rounding :
  let u := (4953959590107545 # 9007199254740992)%Q in
  is_binary64 u = true ∧
  synthRating u = Fin (round64 (46 # 10)) ∧ synthReviews u = Fin 160.
Proof. vm_compute. done. Qed.

(** ** The registry of products: [byModel] *)

Lemma String_eqb_true (a b : string) : String.eqb a b = true ↔ a = b.
Proof. apply String.eqb_eq. Qed.

Lemma byModel_has_elem byModel m :
  byModel_has byModel m = true ↔ m ∈ b_model <$> byModel.
Proof.
  unfold byModel_has. rewrite existsb_exists, list_elem_of_fmap.
  split.
  - intros (b & Hb & E). apply String.eqb_eq in E. exists b.
    split; [done|]. by apply list_elem_of_In.
  - intros (b & -> & Hb). exists b.
    split; [by apply list_elem_of_In | apply String.eqb_refl].
Qed.

Section EnsureProduct.
Context (random : nat → Q) (cs ps : list row).
Local Abbreviation ensure := (ensureProduct random cs ps).

Lemma ensure_cases st r :
  (byModel_has st.1 (v_model r) = true ∧ ensure st r = st) ∨
  (byModel_has st.1 (v_model r) = false ∧
   ∃ b, made_from random cs ps b r st.2 ∧ ensure st r = (st.1 ++ [b], S (S st.2))%list).
Proof.
  destruct st as [bm n]. simpl.
  destruct (byModel_has bm (v_model r)) eqn:E; [by left|right].
  split; [done|]. eexists. split; [reflexivity|]. done.
Qed.

Lemma ensure_fold_elem rows : ∀ st b,
  b ∈ (foldl ensure st rows).1 →
  b ∈ st.1 ∨ ∃ r n, r ∈ rows ∧ made_from random cs ps b r n.
Proof.
  induction rows as [|r rows IH]; intros st b; simpl; [by left|].
  intros Hb. apply IH in Hb as [Hb|(r' & n & Hr' & Hm)].
  - destruct (ensure_cases st r) as [[_ E]|(_ & b' & Hb' & E)];
      rewrite E in Hb; [by left|].
    simpl in Hb. apply elem_of_app in Hb as [Hb|Hb]; [by left|].
    apply list_elem_of_singleton in Hb as ->. right. exists r, st.2.
    split; [left|done].
  - right. exists r', n. split; [by right|done].
Qed.

Lemma ensure_fold_mono rows : ∀ st b,
  b ∈ st.1 → b ∈ (foldl ensure st rows).1.
Proof.
  induction rows as [|r rows IH]; intros st b Hb; simpl; [done|].
  apply IH.
  destruct (ensure_cases st r) as [[_ ->]|(_ & b' & _ & ->)]; [done|].
  simpl. apply elem_of_app. by left.
Qed.

Lemma ensure_fold_has rows : ∀ st r,
  r ∈ rows → v_model r ∈ b_model <$> (foldl ensure st rows).1.
Proof.
  induction rows as [|r0 rows IH]; intros st r Hr; simpl.
  { by apply elem_of_nil in Hr. }
  apply elem_of_cons in Hr as [->|Hr]; [|by apply IH].
  destruct (ensure_cases st r0) as [[Hhas E]|(_ & b' & Hb' & E)].
  - apply byModel_has_elem, list_elem_of_fmap in Hhas as (b & Hm & Hb).
    apply list_elem_of_fmap. exists b. split; [done|].
    apply ensure_fold_mono. by rewrite E.
  - apply list_elem_of_fmap. exists b'. split; [by rewrite Hb'|].
    apply ensure_fold_mono. rewrite E. simpl. apply elem_of_app. right. left.
Qed.

Lemma ensure_fold_NoDup rows : ∀ st,
  NoDup (b_model <$> st.1) → NoDup (b_model <$> (foldl ensure st rows).1).
Proof.
  induction rows as [|r rows IH]; intros st Hnd; simpl; [done|].
  apply IH.
  destruct (ensure_cases st r) as [[_ ->]|(Hno & b' & Hb' & ->)]; [done|].
  simpl. rewrite fmap_app. apply NoDup_app. split; [done|]. split.
  - intros m Hm Hm'. apply list_elem_of_singleton in Hm'. simpl in Hm'.
    subst m. rewrite Hb' in Hm. simpl in Hm.
    apply byModel_has_elem in Hm. congruence.
  - apply NoDup_singleton.
Qed.

End EnsureProduct.

(** ** Objects as ordered dictionaries *)

Section Objects.
Context {V : Type}.
Implicit Types (o : list (string * V)) (k : string) (v : V).

Lemma obj_set_elem o k v kv : kv ∈ obj_set o k v → kv ∈ o ∨ kv = (k, v).
Proof.
  induction o as [|[k' v'] o IH]; simpl.
  - intros ->%list_elem_of_singleton. by right.
  - destruct (String.eqb_spec k' k) as [->|Hne].
    + intros [->|H]%elem_of_cons; [by right|]. left. by right.
    + intros [->|H]%elem_of_cons; [left; left|].
      destruct (IH H) as [?|?]; [left; by right|by right].
Qed.

Lemma obj_set_keys_inv o k v k' : k' ∈ (obj_set o k v).*1 → k' ∈ o.*1 ∨ k' = k.
Proof.
  intros ([k1 v1] & -> & H)%list_elem_of_fmap.
  apply obj_set_elem in H as [H|[= -> ->]]; [|by right].
  left. apply list_elem_of_fmap. by exists (k1, v1).
Qed.

Lemma obj_set_keys_mono o k v k' : k' ∈ o.*1 → k' ∈ (obj_set o k v).*1.
Proof.
  induction o as [|[k1 v1] o IH]; simpl; [by intros ?%elem_of_nil|].
  destruct (String.eqb_spec k1 k) as [->|Hne]; simpl; [done|].
  intros [->|H]%elem_of_cons; [left|right; by apply IH].
Qed.

Lemma obj_set_key_in o k v : (k, v) ∈ obj_set o k v.
Proof.
  induction o as [|[k1 v1] o IH]; simpl; [left|].
  destruct (String.eqb_spec k1 k) as [->|Hne]; [left|by right].
Qed.

Lemma obj_set_NoDup o k v : NoDup o.*1 → NoDup (obj_set o k v).*1.
Proof.
  induction o as [|[k1 v1] o IH]; simpl.
  - intros _. apply NoDup_singleton.
  - destruct (String.eqb_spec k1 k) as [->|Hne]; simpl; [done|].
    intros [Hk1 Hnd]%NoDup_cons. apply NoDup_cons. split; [|by apply IH].
    intros [H| ->]%obj_set_keys_inv; done.
Qed.

Lemma obj_get_Some o k v : obj_get o k = Some v → (k, v) ∈ o.
Proof.
  induction o as [|[k1 v1] o IH]; simpl; [done|].
  destruct (String.eqb_spec k1 k) as [->|Hne].
  - intros [= ->]. left.
  - intros H. right. by apply IH.
Qed.

Lemma obj_get_elem o k v : NoDup o.*1 → (k, v) ∈ o → obj_get o k = Some v.
Proof.
  induction o as [|[k1 v1] o IH]; simpl; [by intros _ ?%elem_of_nil|].
  intros [Hk1 Hnd]%NoDup_cons [[= -> ->]|H]%elem_of_cons.
  - by rewrite String.eqb_refl.
  - destruct (String.eqb_spec k1 k) as [->|Hne]; [|by apply IH].
    destruct Hk1. apply list_elem_of_fmap. by exists (k, v).
Qed.
End Objects.

(** ** The variant index *)

Lemma addVar_fold_elem rows : ∀ vs kv,
  kv ∈ foldl addVar vs rows →
  kv ∈ vs ∨ ∃ r, r ∈ rows ∧
    kv = (variantKey r, {| price := v_price r; currency := v_currency r |}).
Proof.
  induction rows as [|r rows IH]; intros vs kv; simpl; [by left|].
  intros [H|(r' & Hr' & ->)]%IH.
  - apply obj_set_elem in H as [H| ->]; [by left|].
    right. exists r. split; [left|done].
  - right. exists r'. split; [by right|done].
Qed.

Lemma addVar_fold_keys_mono rows : ∀ vs k,
  k ∈ vs.*1 → k ∈ (foldl addVar vs rows).*1.
Proof.
  induction rows as [|r rows IH]; intros vs k H; simpl; [done|].
  apply IH. by apply obj_set_keys_mono.
Qed.

Lemma addVar_fold_key rows : ∀ vs r,
  r ∈ rows → variantKey r ∈ (foldl addVar vs rows).*1.
Proof.
  induction rows as [|r0 rows IH]; intros vs r; simpl; [by intros ?%elem_of_nil|].
  intros [->|H]%elem_of_cons; [|by apply IH].
  apply addVar_fold_keys_mono. apply list_elem_of_fmap.
  eexists. split; [|apply obj_set_key_in]. done.
Qed.

Lemma addVar_fold_NoDup rows : ∀ vs,
  NoDup vs.*1 → NoDup (foldl addVar vs rows).*1.
Proof.
  induction rows as [|r rows IH]; intros vs H; simpl; [done|].
  apply IH. by apply obj_set_NoDup.
Qed.

(** The variant index of a catalog and the rows it was built from. *)
Lemma buildCatalog_variants random wb market :
  variants (buildCatalog random wb market) = foldl addVar [] (retainedRows wb market).
Proof. unfold buildCatalog, retainedRows. simpl. by rewrite foldl_app. Qed.

Lemma variants_NoDup random wb market :
  NoDup (obj_keys (variants (buildCatalog random wb market))).
Proof. rewrite buildCatalog_variants. apply addVar_fold_NoDup. constructor. Qed.

Lemma variants_key_iff random wb market k :
  k ∈ obj_keys (variants (buildCatalog random wb market)) ↔
  ∃ r, r ∈ retainedRows wb market ∧ k = variantKey r.
Proof.
  rewrite buildCatalog_variants. split.
  - intros ([k1 v1] & -> & H)%list_elem_of_fmap.
    apply addVar_fold_elem in H as [H|(r & Hr & [= -> ->])].
    + by apply elem_of_nil in H.
    + by exists r.
  - intros (r & Hr & ->). by apply addVar_fold_key.
Qed.

Lemma variants_entry random wb market k v :
  (k, v) ∈ variants (buildCatalog random wb market) →
  ∃ r, r ∈ retainedRows wb market ∧ k = variantKey r ∧
       price v = v_price r ∧ currency v = v_currency r.
Proof.
  rewrite buildCatalog_variants.
  intros [H|(r & Hr & [= -> ->])]%addVar_fold_elem.
  - by apply elem_of_nil in H.
  - by exists r.
Qed.

Lemma retainedRows_inv wb market r :
  r ∈ retainedRows wb market →
  retained r = true ∧
  ∃ raw c, raw ∈ sheetToJson wb (sheet_of c) ∧ r = normRow market raw c.
Proof.
  unfold retainedRows, normRows.
  intros [H|H]%elem_of_app; apply list_elem_of_In, filter_In in H as [H ?];
    apply list_elem_of_In, list_elem_of_fmap in H as (raw & -> & Hraw);
    (split; [done|]).
  - by exists raw, Usado.
  - by exists raw, Novo.
Qed.

Lemma retainedRows_intro wb market raw c :
  raw ∈ sheetToJson wb (sheet_of c) → retained (normRow market raw c) = true →
  normRow market raw c ∈ retainedRows wb market.
Proof.
  intros Hraw Hret. unfold retainedRows, normRows. apply elem_of_app.
  destruct c; [left|right]; apply list_elem_of_In, filter_In;
    (split; [|done]); apply list_elem_of_In, list_elem_of_fmap; by exists raw.
Qed.

Lemma safeNumber_shape v : safeNumber v = VNull ∨ ∃ n, safeNumber v = VNum n.
Proof.
  unfold safeNumber.
  destruct v; try (by right; eexists); destruct (negb _); try (by left);
    destruct (StringToNumber _); (by left) || (by right; eexists).
Qed.

(** A retained price is a number other than [NaN] and 0. *)
Lemma retained_price wb market r :
  r ∈ retainedRows wb market → ∃ q, v_price r = VNum (Fin q) ∧ ¬ (q == 0)%Q.
Proof.
  intros (Hret & raw & c & _ & ->)%retainedRows_inv.
  apply andb_true_iff in Hret as [_ H]. revert H.
  unfold normRow. simpl. set (v := _ ||| _).
  destruct (safeNumber_shape v) as [->|[n ->]]; simpl; [done|].
  destruct n as [|q]; [done|]. intros H.
  exists q. split; [done|]. intros Hq. apply Qeq_bool_iff in Hq. by rewrite Hq in H.
Qed.

(** ** Characters of a string *)

Section StringForall.
Context (p : ascii → bool).

Lemma string_forall_app s t :
  string_forall p (s ++ t) = string_forall p s && string_forall p t.
Proof. induction s as [|a s IH]; simpl; [done|]. by rewrite IH, andb_assoc. Qed.

Lemma string_forall_take n : ∀ s,
  string_forall p s = true → string_forall p (string_take n s) = true.
Proof.
  induction n as [|n IH]; intros [|a s]; simpl; try done.
  intros [-> H]%andb_true_iff. by apply IH.
Qed.

Lemma string_forall_drop n : ∀ s,
  string_forall p s = true → string_forall p (string_drop n s) = true.
Proof.
  induction n as [|n IH]; intros [|a s]; simpl; try done.
  intros [_ H]%andb_true_iff. by apply IH.
Qed.

Lemma string_forall_repeat c n : p c = true → string_forall p (repeat_char c n) = true.
Proof. intros Hc. induction n as [|n IH]; simpl; [done|]. by rewrite Hc. Qed.

Lemma string_forall_strip s :
  string_forall p s = true → string_forall p (strip_trailing_zeros s) = true.
Proof.
  induction s as [|a s IH]; simpl; [done|].
  intros [Ha H]%andb_true_iff. destruct (_ && _); simpl; [done|].
  by rewrite Ha, IH.
Qed.

Lemma string_forall_uint d :
  (∀ c, is_digit c = true → p c = true) →
  string_forall p (NilEmpty.string_of_uint d) = true.
Proof.
  intros Hp. induction d; simpl; rewrite ?IHd, ?andb_true_r; try done;
    by apply Hp.
Qed.

Lemma string_forall_N n :
  (∀ c, is_digit c = true → p c = true) → string_forall p (N_to_string n) = true.
Proof.
  intros Hp. unfold N_to_string, NilZero.string_of_uint.
  destruct (N.to_uint n) eqn:E; rewrite <- ?E; try by apply string_forall_uint.
  simpl. rewrite andb_true_r. by apply Hp.
Qed.
End StringForall.

Lemma string_forall_impl (p q : ascii → bool) s :
  (∀ c, p c = true → q c = true) → string_forall p s = true → string_forall q s = true.
Proof.
  intros Hpq. induction s as [|a s IH]; simpl; [done|].
  intros [Ha H]%andb_true_iff. by rewrite (Hpq _ Ha), IH.
Qed.

Lemma numToString_chars n : string_forall number_char (numToString n) = true.
Proof.
  assert (Hd : ∀ c, is_digit c = true → number_char c = true).
  { intros c Hc. unfold number_char. by rewrite Hc. }
  assert (Hsign : ∀ z : Z, string_forall number_char (if (z <? 0)%Z then "-" else "") = true).
  { intros z. by destruct (z <? 0)%Z. }
  destruct n as [|q]; [done|]. unfold numToString.
  destruct (Qeq_bool _ _); [done|].
  destruct (_ && _).
  { by rewrite string_forall_app, Hsign, string_forall_N. }
  rewrite string_forall_app, Hsign. simpl.
  unfold positive_to_string.
  set (D' := N_to_string _). set (D := strip_trailing_zeros D').
  assert (HD : string_forall number_char D = true).
  { apply string_forall_strip. by apply string_forall_N. }
  repeat match goal with
         | |- context [if ?b then _ else _] => destruct b
         end;
    repeat first
      [ assumption | reflexivity
      | rewrite string_forall_app
      | apply andb_true_intro; split
      | apply string_forall_take | apply string_forall_drop
      | apply string_forall_repeat | apply string_forall_N
      | progress simpl ].
Qed.

Lemma numToString_no_pipe n : no_pipe (numToString n) = true.
Proof.
  eapply string_forall_impl; [|apply numToString_chars].
  intros c. unfold number_char, is_digit, char_in. simpl.
  destruct (Ascii.eqb_spec c "|") as [->|]; done.
Qed.

(** ** Splitting a key *)

Lemma split_nonempty c s : split c s ≠ [].
Proof.
  destruct s as [|a s]; simpl; [done|].
  destruct (Ascii.eqb a c); [done|]. by destruct (split c s).
Qed.

Lemma split_app c s t :
  string_forall (λ a, negb (Ascii.eqb a c)) s = true →
  split c (s ++ String c t) = s :: split c t.
Proof.
  induction s as [|a s IH]; simpl.
  - intros _. by rewrite Ascii.eqb_refl.
  - intros [Ha H]%andb_true_iff. apply negb_true_iff in Ha. rewrite Ha.
    by rewrite (IH H).
Qed.

Lemma split_whole c s :
  string_forall (λ a, negb (Ascii.eqb a c)) s = true → split c s = [s].
Proof.
  induction s as [|a s IH]; simpl; [done|].
  intros [Ha H]%andb_true_iff. apply negb_true_iff in Ha. rewrite Ha.
  by rewrite (IH H).
Qed.

Lemma variantKey_split r :
  no_pipe (v_model r) = true →
  split "|" (variantKey r) =
    v_model r :: condition_name (v_condition r) :: numToString (v_storage_gb r)
    :: split "|" (v_market r).
Proof.
  intros Hm.
  change (variantKey r) with
    (v_model r ++ String "|" (condition_name (v_condition r) ++ String "|"
       (numToString (v_storage_gb r) ++ String "|" (v_market r)))).
  rewrite split_app by done. f_equal.
  rewrite split_app by (by destruct (v_condition r)). f_equal.
  rewrite split_app by apply numToString_no_pipe. done.
Qed.

Lemma key_matches_variantKey r model market :
  no_pipe (v_model r) = true → no_pipe (v_market r) = true →
  key_matches model market (variantKey r) = true ↔
  v_model r = model ∧ v_market r = market.
Proof.
  intros Hm Hk. unfold key_matches, key_part.
  rewrite variantKey_split, (split_whole _ _ Hk) by done. simpl.
  rewrite andb_true_iff, !String.eqb_eq. done.
Qed.

Lemma key_cond_variantKey r c :
  no_pipe (v_model r) = true →
  strict_eq_str (key_part (variantKey r) 1) (condition_name c) = true ↔
  v_condition r = c.
Proof.
  intros Hm. unfold key_part. rewrite variantKey_split by done. simpl.
  rewrite String.eqb_eq. destruct (v_condition r), c; done.
Qed.


(** ** Sets of numbers *)

Lemma sameValueZero_canon x y : sameValueZero x y = true ↔ canon x = canon y.
Proof.
  destruct x as [|x], y as [|y]; simpl; try done.
  rewrite Qeq_bool_iff. split.
  - intros H. f_equal. by apply Qred_complete.
  - intros [= H]. by rewrite <- (Qred_correct x), <- (Qred_correct y), H.
Qed.

Lemma set_has_canon s x : set_has s x = true ↔ canon x ∈ canon <$> s.
Proof.
  unfold set_has. rewrite existsb_exists, list_elem_of_fmap. split.
  - intros (y & Hy & E). exists y. split; [by apply sameValueZero_canon|].
    by apply list_elem_of_In.
  - intros (y & E & Hy). exists y. split; [by apply list_elem_of_In|].
    by apply sameValueZero_canon.
Qed.

Lemma set_add_canon s x c :
  c ∈ canon <$> set_add s x ↔ c ∈ canon <$> s ∨ c = canon x.
Proof.
  unfold set_add. destruct (set_has s x) eqn:E.
  - apply set_has_canon in E. split; [by left|]. by intros [?| ->].
  - rewrite fmap_app, elem_of_app. simpl. by rewrite list_elem_of_singleton.
Qed.

Lemma set_add_elem s x y : y ∈ set_add s x → y ∈ s ∨ y = x.
Proof.
  unfold set_add. destruct (set_has s x); [by left|].
  rewrite elem_of_app, list_elem_of_singleton. done.
Qed.


Section FoldSet.
Context (test : string → bool) (num : string → number).
Local Abbreviation step := (λ s k, if test k then set_add s (num k) else s).

Lemma fold_set_canon keys : ∀ s c,
  c ∈ canon <$> foldl step s keys ↔
  c ∈ canon <$> s ∨ ∃ k, k ∈ keys ∧ test k = true ∧ c = canon (num k).
Proof.
  induction keys as [|k keys IH]; intros s c; simpl.
  - split; [by left|]. intros [?|(k & ?%elem_of_nil & _)]; done.
  - rewrite IH. destruct (test k) eqn:E.
    + rewrite set_add_canon. split.
      * intros [[?| ->]|(k' & ? & ? & ->)]; [by left| |].
        -- right. exists k. split; [left|done].
        -- right. exists k'. split; [by right|done].
      * intros [?|(k' & [->|?]%elem_of_cons & ? & ->)]; [by left; left| |].
        -- left. by right.
        -- right. by exists k'.
    + split.
      * intros [?|(k' & ? & ? & ->)]; [by left|].
        right. exists k'. split; [by right|done].
      * intros [?|(k' & [->|?]%elem_of_cons & ? & ->)]; [by left|congruence|].
        right. by exists k'.
Qed.

Lemma fold_set_elem keys : ∀ s x,
  x ∈ foldl step s keys → x ∈ s ∨ ∃ k, k ∈ keys ∧ test k = true ∧ x = num k.
Proof.
  induction keys as [|k keys IH]; intros s x; simpl; [by left|].
  intros [H|(k' & ? & ? & ->)]%IH.
  - destruct (test k) eqn:E; [|by left].
    apply set_add_elem in H as [?| ->]; [by left|].
    right. exists k. split; [left|done].
  - right. exists k'. split; [by right|done].
Qed.

End FoldSet.

(** ** Sorting *)

#[local] Arguments num_ltb : simpl never.
#[local] Arguments num_sub : simpl never.

Lemma sort_insert_perm {A} (cmp : A → A → number) x l :
  sort_insert cmp x l ≡ₚ x :: l.
Proof.
  induction l as [|y l IH]; simpl; [done|].
  destruct (num_ltb (Fin 0) (cmp x y)); [|reflexivity].
  rewrite IH. apply Permutation_swap.
Qed.

Lemma array_sort_perm {A} (cmp : A → A → number) l : array_sort cmp l ≡ₚ l.
Proof.
  induction l as [|x l IH]; simpl; [done|].
  rewrite sort_insert_perm. by rewrite IH.
Qed.





(** ** Printing an integer and reading it back *)














(** ** The catalog *)

Lemma buildCatalog_products random wb market :
  products (buildCatalog random wb market) =
  omap (productOf (variants (buildCatalog random wb market)) market)
       (byModelOf random wb market).
Proof. reflexivity. Qed.

Lemma byModelOf_made random wb market b :
  b ∈ byModelOf random wb market →
  ∃ r n, r ∈ retainedRows wb market ∧
         made_from random (sheetToJson wb "colors") (sheetToJson wb "products") b r n.
Proof.
  intros [H|H]%ensure_fold_elem; [by apply elem_of_nil in H|done].
Qed.

Lemma byModelOf_has random wb market r :
  r ∈ retainedRows wb market → v_model r ∈ b_model <$> byModelOf random wb market.
Proof. apply ensure_fold_has. Qed.

Lemma byModelOf_NoDup random wb market :
  NoDup (b_model <$> byModelOf random wb market).
Proof. apply ensure_fold_NoDup. constructor. Qed.

Lemma productOf_Some vs market b p :
  productOf vs market b = Some p →
  p_id p = b_id b ∧ p_model p = b_model b ∧ p_type p = b_type b ∧
  p_rating p = b_rating b ∧ p_reviews p = b_reviews b ∧
  (∀ c, storages c p =
        array_sort num_sub (storSet vs (b_model b) market (condition_name c))) ∧
  ∃ c, storSet vs (b_model b) market (condition_name c) ≠ [].
Proof.
  unfold productOf.
  destruct (storSet vs (b_model b) market "usado") as [|x l] eqn:Eu;
    destruct (storSet vs (b_model b) market "novo") as [|y l'] eqn:En;
    simpl; [done|..]; intros [= <-]; simpl; repeat split;
    try (intros [|]; simpl; by rewrite ?Eu, ?En).
  - exists Novo. simpl. by rewrite En.
  - exists Usado. simpl. by rewrite Eu.
  - exists Usado. simpl. by rewrite Eu.
Qed.

Lemma productOf_None vs market b :
  productOf vs market b = None ↔
  ∀ c, storSet vs (b_model b) market (condition_name c) = [].
Proof.
  unfold productOf. split.
  - destruct (storSet vs (b_model b) market "usado") as [|x l] eqn:Eu;
      destruct (storSet vs (b_model b) market "novo") as [|y l'] eqn:En;
      simpl; try done. by intros _ [|].
  - intros H. pose proof (H Usado) as Hu. pose proof (H Novo) as Hn.
    simpl in Hu, Hn. by rewrite Hu, Hn.
Qed.

Lemma products_elem random wb market p :
  p ∈ products (buildCatalog random wb market) ↔
  ∃ b, b ∈ byModelOf random wb market ∧
       productOf (variants (buildCatalog random wb market)) market b = Some p.
Proof. rewrite buildCatalog_products. apply list_elem_of_omap. Qed.

Lemma products_NoDup random wb market :
  NoDup (p_model <$> products (buildCatalog random wb market)).
Proof.
  rewrite buildCatalog_products.
  pose proof (byModelOf_NoDup random wb market) as H.
  induction (byModelOf random wb market) as [|b l IH]; simpl; [constructor|].
  apply NoDup_cons in H as [Hb Hl].
  destruct (productOf _ market b) as [p|] eqn:E; simpl; [|by apply IH].
  apply NoDup_cons. split; [|by apply IH].
  intros (p' & Hp' & (b' & Hb' & E')%list_elem_of_omap)%list_elem_of_fmap.
  apply productOf_Some in E as (_ & Hm & _), E' as (_ & Hm' & _).
  apply Hb. apply list_elem_of_fmap. exists b'. split; [congruence|done].
Qed.

(** The storage set of a condition, in terms of the retained rows. *)
Lemma storSet_elem random wb market model c x :
  x ∈ storSet (variants (buildCatalog random wb market)) model market (condition_name c) →
  ∃ r, r ∈ retainedRows wb market ∧
       key_matches model market (variantKey r) = true ∧
       strict_eq_str (key_part (variantKey r) 1) (condition_name c) = true ∧
       x = ToNumber (key_part (variantKey r) 2).
Proof.
  unfold storSet.
  intros [H|(k & Hk & Ht & ->)]%fold_set_elem; [by apply elem_of_nil in H|].
  apply variants_key_iff in Hk as (r & Hr & ->).
  apply andb_true_iff in Ht as [? ?]. by exists r.
Qed.

Lemma storSet_canon random wb market model c r :
  r ∈ retainedRows wb market →
  key_matches model market (variantKey r) = true →
  strict_eq_str (key_part (variantKey r) 1) (condition_name c) = true →
  canon (ToNumber (key_part (variantKey r) 2)) ∈
  canon <$> storSet (variants (buildCatalog random wb market)) model market
              (condition_name c).
Proof.
  intros Hr Hm Hc. unfold storSet.
  apply (fold_set_canon
           (λ k, key_matches model market k && strict_eq_str (key_part k 1) (condition_name c))
           (λ k, ToNumber (key_part k 2))).
  right. exists (variantKey r). split; [|by rewrite Hm, Hc].
  apply variants_key_iff. by exists r.
Qed.


(** ** C2: the [type] of a product *)

(** C2, the claim as stated fails: ["iPad Mac"] contains both "ipad" and
    "mac" and not "iphone", and its type is ["macbook"], not ["ipad"]. *)
Lemma productType_ipad_mac :
  ¬ (∀ model,
       includes (toLowerCase model) "ipad" = true →
       includes (toLowerCase model) "mac" = true →
       includes (toLowerCase model) "iphone" = false →
       productType model = "ipad").
Proof. intros H. by specialize (H "iPad Mac" eq_refl eq_refl eq_refl). Qed.

(** C2, as amended: the [type] of every product of the catalog is inferred
    from its lower-cased model by the checks "iphone", then "mac", then
    "ipad", else ["acessorio"] (there is no "watch" check); a model that
    contains both "ipad" and "mac" and not "iphone" is a ["macbook"]. *)
Theorem product_type_order random wb market p :
  p ∈ products (buildCatalog random wb market) →
  let m := toLowerCase (p_model p) in
  (includes m "iphone" = true → p_type p = "iphone") ∧
  (includes m "iphone" = false → includes m "mac" = true → p_type p = "macbook") ∧
  (includes m "iphone" = false → includes m "mac" = false →
   includes m "ipad" = true → p_type p = "ipad") ∧
  (includes m "iphone" = false → includes m "mac" = false →
   includes m "ipad" = false → p_type p = "acessorio").
Proof.
  intros (b & Hb & Hp)%products_elem.
  apply productOf_Some in Hp as (_ & Hm & Ht & _).
  apply byModelOf_made in Hb as (r & n & _ & ->). simpl in *.
  rewrite Hm, Ht. unfold productType.
  repeat split; intros; repeat match goal with H : _ = _ |- _ => rewrite H end; done.
Qed.

Lemma product_type_order_witness :
  let wb : workbook :=
    {[ "prices_usados" :=
         [ {[ "model" := VStr "iPad Mac"; "storage_gb" := VNum (Fin 64);
              "price" := VNum (Fin 100) ]} ] ]} in
  ∃ p, p ∈ products (buildCatalog (λ _, 0%Q) wb "AO") ∧
       p_model p = "iPad Mac" ∧ p_type p = "macbook".
Proof.
  intros wb. eexists. split; [left|]. split; [reflexivity|].
  eapply (product_type_order (λ _, 0%Q) wb "AO"); [left|reflexivity|reflexivity].
Defined.

(** The order the claim describes is that of [inferCategory], which gives
    the category label and is not what fills [type]. *)
Lemma inferCategory_order model fallback :
  let m := toLowerCase (ToString model) in
  (includes m "ipad" = true → inferCategory model fallback = "iPads") ∧
  (includes m "ipad" = false → includes m "mac" = true →
   inferCategory model fallback = "MacBooks") ∧
  (includes m "ipad" = false → includes m "mac" = false →
   includes m "macbook" = false → includes m "watch" = true →
   inferCategory model fallback = "Apple Watch").
Proof.
  intros m. unfold inferCategory. fold m.
  repeat split; intros; repeat match goal with H : _ = _ |- _ => rewrite H end;
    rewrite ?orb_true_r; done.
Qed.

(** ** Ratings and reviews of the products *)

(** Every product of the catalog carries a rating and a number of reviews
    in these ranges, as long as the random source draws binary64 values
    from [[0,1)]. *)
Lemma product_rating_reviews random wb market p :
  (∀ n, is_binary64 (random n) = true ∧ (0 <= random n)%Q ∧ (random n < 1)%Q) →
  p ∈ products (buildCatalog random wb market) →
  (∃ q, p_rating p = Fin q ∧ (4 <= q)%Q ∧ (q <= 5)%Q) ∧
  (∃ z, p_reviews p = num_of_Z z ∧ (50 ≤ z < 250)%Z).
Proof.
  intros Hr (b & Hb & Hp)%products_elem.
  apply productOf_Some in Hp as (_ & _ & _ & -> & -> & _).
  apply byModelOf_made in Hb as (r & n & _ & ->). simpl.
  destruct (Hr n) as (Hb & H0 & H1). destruct (Hr (S n)) as (Hb' & H0' & H1').
  split.
  - destruct (synthRating_range _ Hb H0 H1) as (z & _ & -> & ? & ?). by eexists.
  - by apply synthReviews_range.
Qed.

(** ** C5: which products are listed *)

Lemma pipe_free_elem rows r :
  pipe_free rows = true → r ∈ rows →
  no_pipe (v_model r) = true ∧ no_pipe (v_market r) = true.
Proof.
  unfold pipe_free. rewrite forallb_forall. intros H Hr%list_elem_of_In.
  by apply andb_true_iff, H.
Qed.

(** C5, where the code departs from it: a row whose model holds the
    separator ['|'] is retained in the requested market, and its product is
    never listed, because the key is split at every ['|'] and nothing
    escapes the separator in a model. *)
Lemma product_with_pipe_not_listed :
  let wb : workbook :=
    {[ "prices_usados" :=
         [ {[ "model" := VStr "iPad Pro|M2"; "storage_gb" := VNum (Fin 64);
              "price" := VNum (Fin 100) ]} ] ]} in
  ¬ (∀ model,
       model ∈ p_model <$> products (buildCatalog (λ _, 0%Q) wb "AO") ↔
       ∃ r, r ∈ retainedRows wb "AO" ∧ v_model r = model ∧ v_market r = "AO").
Proof.
  intros wb H. specialize (H "iPad Pro|M2"). destruct H as [_ H].
  assert (Hin : "iPad Pro|M2" ∈ p_model <$> products (buildCatalog (λ _, 0%Q) wb "AO")).
  { apply H. eexists. split; [|split]; [left|reflexivity|reflexivity]. }
  vm_compute in Hin. by apply elem_of_nil in Hin.
Qed.

(** The other way round, a model can be listed for a market in which it
    has no row: the key of another model splits into its name and that
    market. *)
Lemma product_listed_for_other_market :
  let wb : workbook :=
    {[ "prices_usados" :=
         [ {[ "model" := VStr "iPhone 13"; "storage_gb" := VNum (Fin 128);
              "market" := VStr "US"; "price" := VNum (Fin 100) ]};
           {[ "model" := VStr "iPhone 13|usado|64|AO"; "storage_gb" := VNum (Fin 1);
              "market" := VStr "US"; "price" := VNum (Fin 5) ]} ] ]} in
  p_model <$> products (buildCatalog (λ _, 0%Q) wb "AO") = ["iPhone 13"] ∧
  v_market <$> retainedRows wb "AO" = ["US"; "US"].
Proof. split; reflexivity. Qed.

(** Apart from that, the code does what C5 says: when no retained model or
    market holds the key separator ['|'], a model is listed in [products]
    if and only if one of the retained rows (of either condition) has that
    model and the requested market. *)
Theorem product_listed_iff random wb market model :
  pipe_free (retainedRows wb market) = true →
  model ∈ p_model <$> products (buildCatalog random wb market) ↔
  ∃ r, r ∈ retainedRows wb market ∧ v_model r = model ∧ v_market r = market.
Proof.
  intros Hfree. split.
  - intros (p & -> & (b & Hb & Hp)%products_elem)%list_elem_of_fmap.
    apply productOf_Some in Hp as (_ & Hm & _ & _ & _ & _ & c & Hne).
    destruct (storSet _ _ _ _) as [|x l] eqn:E; [done|].
    assert (Hx : x ∈ x :: l) by left. rewrite <- E in Hx.
    apply storSet_elem in Hx as (r & Hr & Hk & _).
    destruct (pipe_free_elem _ r Hfree Hr) as [Hpm Hpk].
    apply key_matches_variantKey in Hk as [? ?]; [|done..].
    exists r. by rewrite Hm.
  - intros (r & Hr & <- & <-).
    destruct (pipe_free_elem _ r Hfree Hr) as [Hpm Hpk].
    pose proof (byModelOf_has random wb (v_market r) r Hr) as Hb.
    apply list_elem_of_fmap in Hb as (b & Hbm & Hb).
    destruct (productOf (variants (buildCatalog random wb (v_market r))) (v_market r) b)
      as [p|] eqn:E.
    + apply list_elem_of_fmap. exists p. split.
      * apply productOf_Some in E as (_ & -> & _). done.
      * apply products_elem. by exists b.
    + exfalso. rewrite productOf_None in E. specialize (E (v_condition r)).
      assert (Hc : canon (ToNumber (key_part (variantKey r) 2)) ∈
                   canon <$> storSet (variants (buildCatalog random wb (v_market r)))
                               (b_model b) (v_market r) (condition_name (v_condition r))).
      { apply storSet_canon; [done| |].
        - apply key_matches_variantKey; done.
        - by apply key_cond_variantKey. }
      rewrite E in Hc. by apply elem_of_nil in Hc.
Qed.

Lemma product_listed_iff_witness :
  let wb : workbook :=
    {[ "prices_usados" :=
         [ {[ "model" := VStr "iPad Air"; "storage_gb" := VNum (Fin 64);
              "market" := VStr "US"; "price" := VNum (Fin 100) ]} ] ]} in
  "iPad Air" ∈ p_model <$> products (buildCatalog (λ _, 0%Q) wb "AO") ↔
  ∃ r, r ∈ retainedRows wb "AO" ∧ v_model r = "iPad Air" ∧ v_market r = "AO".
Proof. intros wb. apply (product_listed_iff (λ _, 0%Q) wb "AO"). reflexivity. Defined.

(** ** C6: the storage arrays *)








(** ** C10: rows whose price is 0 *)

Lemma sheetToJson_insert (wb : workbook) name rows :
  sheetToJson (<[name := rows]> wb) name = rows.
Proof. unfold sheetToJson. by rewrite lookup_insert_eq. Qed.

Lemma sheetToJson_insert_ne (wb : workbook) name name' rows :
  name ≠ name' → sheetToJson (<[name := rows]> wb) name' = sheetToJson wb name'.
Proof. intros H. unfold sheetToJson. by rewrite lookup_insert_ne. Qed.

Lemma normRows_drop market c raw pre post :
  retained (normRow market raw c) = false →
  normRows market c (pre ++ raw :: post) = normRows market c (pre ++ post).
Proof.
  intros H. unfold normRows.
  rewrite !map_app, !List.filter_app. simpl. by rewrite H.
Qed.

(** C10: a row of either price sheet whose price parses to 0 fails the
    test [r.model && r.price] although its price is a number, so the
    catalog (variant index, products and their storages) is the one built
    without that row. *)
Theorem zero_price_row_dropped random (wb : workbook) market c raw pre post :
  (∃ q, v_price (normRow market raw c) = VNum (Fin q) ∧ (q == 0)%Q) →
  retained (normRow market raw c) = false ∧
  buildCatalog random (<[sheet_of c := (pre ++ raw :: post)%list]> wb) market =
  buildCatalog random (<[sheet_of c := (pre ++ post)%list]> wb) market.
Proof.
  intros (q & Hp & Hq).
  assert (Hret : retained (normRow market raw c) = false).
  { unfold retained. rewrite Hp. simpl. apply Qeq_bool_iff in Hq. rewrite Hq.
    apply andb_false_r. }
  split; [done|]. unfold buildCatalog.
  destruct c; simpl sheet_of;
    rewrite ?sheetToJson_insert, ?sheetToJson_insert_ne by done;
    by rewrite (normRows_drop _ _ _ _ _ Hret).
Qed.

Lemma zero_price_row_dropped_witness :
  let raw : row := {[ "model" := VStr "iPhone 13"; "storage_gb" := VNum (Fin 128);
                      "price" := VStr "0,00" ]} in
  retained (normRow "AO" raw Usado) = false ∧
  buildCatalog (λ _, 0%Q) (<[sheet_of Usado := [raw]]> ∅) "AO" =
  buildCatalog (λ _, 0%Q) (<[sheet_of Usado := []]> ∅) "AO".
Proof.
  intros raw.
  apply (zero_price_row_dropped (λ _, 0%Q) ∅ "AO" Usado raw [] []).
  exists 0%Q. split; reflexivity.
Defined.

(** ** C3: the end-to-end example *)

(** C3: with the row [{model:"iPhone 13", storage_gb:128, market:"AO",
    price:"450.000,00"}] in the used-price sheet and
    [{model:"iPhone 13", storage_gb:256, market:"AO", price:"600.000,00"}]
    in the new-price sheet, [buildCatalog] for AO yields exactly one
    product, "iPhone 13", with [storages.usado = [128]] and
    [storages.novo = [256]], and a variant index of exactly two entries,
    priced 450000 and 600000. *)
Theorem buildCatalog_end_to_end random :
  let wb : workbook :=
    {[ "prices_usados" :=
         [ {[ "model" := VStr "iPhone 13"; "storage_gb" := VNum (Fin 128);
              "market" := VStr "AO"; "price" := VStr "450.000,00" ]} ];
       "prices_novos" :=
         [ {[ "model" := VStr "iPhone 13"; "storage_gb" := VNum (Fin 256);
              "market" := VStr "AO"; "price" := VStr "600.000,00" ]} ] ]} in
  let cat := buildCatalog random wb "AO" in
  (∃ p, products cat = [p] ∧ p_model p = "iPhone 13" ∧
        storages_usado p = [Fin 128] ∧ storages_novo p = [Fin 256]) ∧
  variants cat =
    [ ("iPhone 13|usado|128|AO", {| price := VNum (Fin 450000); currency := "AOA" |});
      ("iPhone 13|novo|256|AO", {| price := VNum (Fin 600000); currency := "AOA" |}) ].
Proof.
  intros wb cat. split; [|reflexivity].
  eexists. split; [reflexivity|]. repeat split; reflexivity.
Qed.

(** ** C8: the availability set *)

Lemma strset_has_elem s x : strset_has s x = true ↔ x ∈ s.
Proof.
  unfold strset_has. rewrite existsb_exists. split.
  - intros (y & Hy & ->%String.eqb_eq). by apply list_elem_of_In.
  - intros H. exists x. split; [by apply list_elem_of_In|apply String.eqb_refl].
Qed.

Lemma strset_add_elem s x y : y ∈ strset_add s x ↔ y ∈ s ∨ y = x.
Proof.
  unfold strset_add. destruct (strset_has s x) eqn:E.
  - apply strset_has_elem in E. split; [by left|]. by intros [?| ->].
  - by rewrite elem_of_app, list_elem_of_singleton.
Qed.

(** The set computed by the second scan: the models, read from the
    [model] (or [Model]) header, of the rows whose [disponibilidade] (or
    [Disponibilidade]) cell, lower-cased, contains the city. *)
Lemma modelsAvailable_elem (wb : workbook) city m :
  m ∈ modelsAvailable wb city ↔
  ∃ r : row,
    r ∈ (sheetToJson wb "prices_usados" ++ sheetToJson wb "prices_novos")%list ∧
    m = normModel (r.["model"] ||| r.["Model"] ||| VStr "") ∧ m ≠ "" ∧
    includes (toLowerCase (ToString (r.["disponibilidade"] ||| r.["Disponibilidade"]
                                     ||| VStr ""))) city = true.
Proof.
  unfold modelsAvailable.
  generalize (sheetToJson wb "prices_usados" ++ sheetToJson wb "prices_novos")%list.
  intros rows.
  assert (H : ∀ s,
    m ∈ foldl (λ s (r : row),
                 let model := normModel (r.["model"] ||| r.["Model"] ||| VStr "") in
                 let disponibilidade :=
                   toLowerCase (ToString (r.["disponibilidade"] ||| r.["Disponibilidade"]
                                          ||| VStr "")) in
                 if negb (is_empty model) && includes disponibilidade city
                 then strset_add s model else s) s rows ↔
    m ∈ s ∨ ∃ r : row, r ∈ rows ∧
      m = normModel (r.["model"] ||| r.["Model"] ||| VStr "") ∧ m ≠ "" ∧
      includes (toLowerCase (ToString (r.["disponibilidade"] ||| r.["Disponibilidade"]
                                       ||| VStr ""))) city = true).
  { induction rows as [|r rows IH]; intros s; simpl.
    - split; [by left|]. by intros [?|(? & ?%elem_of_nil & _)].
    - rewrite IH. clear IH.
      set (model := normModel _). set (disp := toLowerCase _).
      destruct (negb (is_empty model) && includes disp city) eqn:E.
      + apply andb_true_iff in E as [Hne Hinc].
        rewrite strset_add_elem. split.
        * intros [[?| ->]|(r' & ? & ?)]; [by left| |].
          -- right. exists r. split; [left|]. split; [done|]. split; [|done].
             intros Hm. by rewrite Hm in Hne.
          -- right. exists r'. split; [by right|done].
        * intros [?|(r' & [->|?]%elem_of_cons & ? & ? & ?)]; [by left; left| |].
          -- left. by right.
          -- right. by exists r'.
      + split.
        * intros [?|(r' & ? & ?)]; [by left|]. right. exists r'. split; [by right|done].
        * intros [?|(r' & [->|?]%elem_of_cons & Hm & Hne & Hinc)]; [by left| |].
          -- exfalso. fold model in Hm. fold disp in Hinc. subst m.
             rewrite Hinc, andb_true_r in E. apply negb_false_iff in E.
             by destruct model.
          -- right. by exists r'. }
  rewrite H. split; [|by right]. intros [?%elem_of_nil|?]; done.
Qed.

Lemma availability_examples :
  let luanda : row := {[ "model" := VStr "iPhone 13";
                         "disponibilidade" := VStr "Luanda, Benguela" ]} in
  let huambo : row := {[ "model" := VStr "iPhone 14";
                         "disponibilidade" := VStr "Huambo" ]} in
  modelsAvailable {[ "prices_usados" := [luanda; huambo] ]} "luanda" = ["iPhone 13"].
Proof. reflexivity. Qed.

(** C8: the second scan reads the model only from the headers [model] and
    [Model], whereas [normRow] also accepts [product], [product_name],
    [product_id] and [modelo] (and [DISPONIBILIDADE] for the availability).
    A row that gives its model as [modelo] is retained in the catalog with
    an availability that contains the city, and its model is not in the
    availability set: the product can never be featured. *)
Theorem availability_scan_misses_alias random :
  let raw : row := {[ "modelo" := VStr "iPhone 13"; "storage_gb" := VNum (Fin 128);
                      "price" := VStr "450.000,00";
                      "disponibilidade" := VStr "Luanda" ]} in
  let wb : workbook := {[ "prices_usados" := [raw] ]} in
  p_model <$> products (buildCatalog random wb "AO") = ["iPhone 13"] ∧
  includes (toLowerCase (v_disponibilidade (normRow "AO" raw Usado))) "luanda" = true ∧
  modelsAvailable wb "luanda" = [] ∧
  featured random (Some wb) [] VUndef (VStr "luanda") VUndef "http://host" =
    Json "AO" (Fin 8) [].
Proof. intros raw wb. repeat split; reflexivity. Qed.

(** ** minPriceForModel *)

Section MinPrice.
Context (vs : list (string * variant)) (market model : string).

Lemma minPrice_fold keys :
  (∀ k, k ∈ keys → ∃ v q, obj_get vs k = Some v ∧ price v = VNum (Fin q)) →
  min_over vs market model keys
    (foldl (λ (acc : option number * string) k,
              if key_matches model market k then
                match obj_get vs k with
                | Some {| price := VNum n; currency := c |} =>
                    match acc.1 with
                    | None => (Some n, c)
                    | Some m => if num_ltb n m then (Some n, c) else acc
                    end
                | _ => acc
                end
              else acc) (None, "AOA") keys).
Proof.
  induction keys as [|k keys IH] using rev_ind; intros Hnum.
  { simpl. by intros k ?%elem_of_nil. }
  rewrite foldl_app. simpl.
  assert (IH' := IH (λ k' Hk', Hnum k' (proj2 (elem_of_app _ _ _) (or_introl Hk')))).
  clear IH. set (acc := foldl _ _ keys) in *.
  destruct (Hnum k) as (v & qk & Hv & Hp).
  { apply elem_of_app. right. left. }
  destruct (key_matches model market k) eqn:Hk.
  2:{ unfold min_over in *. destruct acc.1 as [m|].
      - destruct IH' as (q & -> & (k0 & v0 & Hk0 & ?) & Hmin).
        exists q. split; [done|]. split.
        + exists k0, v0. split; [apply elem_of_app; by left|done].
        + intros k' v' q' [?| ->%list_elem_of_singleton]%elem_of_app ?; [eauto|congruence].
      - intros k' [?| ->%list_elem_of_singleton]%elem_of_app; [eauto|done]. }
  rewrite Hv. destruct v as [pr cu]. simpl in Hp. subst pr.
  unfold min_over in *. destruct acc.1 as [m|] eqn:Hacc.
  - destruct IH' as (q & -> & (k0 & v0 & Hk0 & Hm0 & Hg0 & Hp0 & Hc0) & Hmin).
    destruct (num_ltb (Fin qk) (Fin q)) eqn:Hlt; simpl.
    + assert (Hlt' : (qk < q)%Q).
      { unfold num_ltb in Hlt. apply negb_true_iff in Hlt.
        apply not_true_iff_false in Hlt. rewrite Qle_bool_iff in Hlt. lra. }
      exists qk. split; [done|]. split.
      * exists k, {| price := VNum (Fin qk); currency := cu |}.
        split; [apply elem_of_app; right; left|done].
      * intros k' v' q' [Hk'| ->%list_elem_of_singleton]%elem_of_app Hm' Hg' Hp'.
        -- specialize (Hmin k' v' q' Hk' Hm' Hg' Hp'). lra.
        -- rewrite Hv in Hg'. injection Hg' as <-. simpl in Hp'.
           injection Hp' as <-. lra.
    + assert (Hge : (q <= qk)%Q).
      { unfold num_ltb in Hlt. apply negb_false_iff in Hlt.
        by apply Qle_bool_iff in Hlt. }
      rewrite Hacc. exists q. split; [done|]. split.
      * exists k0, v0. split; [apply elem_of_app; by left|done].
      * intros k' v' q' [Hk'| ->%list_elem_of_singleton]%elem_of_app Hm' Hg' Hp'.
        -- eauto.
        -- rewrite Hv in Hg'. injection Hg' as <-. simpl in Hp'.
           by injection Hp' as <-.
  - simpl. exists qk. split; [done|]. split.
    + exists k, {| price := VNum (Fin qk); currency := cu |}.
      split; [apply elem_of_app; right; left|done].
    + intros k' v' q' [Hk'| ->%list_elem_of_singleton]%elem_of_app Hm' Hg' Hp'.
      * rewrite IH' in Hm'; done.
      * rewrite Hv in Hg'. injection Hg' as <-. simpl in Hp'.
        injection Hp' as <-. lra.
Qed.
End MinPrice.

Lemma variants_get random wb market k v :
  (k, v) ∈ variants (buildCatalog random wb market) ↔
  obj_get (variants (buildCatalog random wb market)) k = Some v.
Proof.
  split; [|apply obj_get_Some]. apply obj_get_elem, variants_NoDup.
Qed.

Lemma variants_price random wb market k v :
  (k, v) ∈ variants (buildCatalog random wb market) → ∃ q, price v = VNum (Fin q).
Proof.
  intros (r & Hr & _ & -> & _)%variants_entry.
  destruct (retained_price _ _ _ Hr) as (q & ? & _). by exists q.
Qed.

(** [minPriceForModel] on the variant index of a catalog. *)
Lemma minPriceForModel_spec random wb market model :
  let vs := variants (buildCatalog random wb market) in
  match (minPriceForModel vs market model).1 with
  | None => ∀ k, k ∈ obj_keys vs → key_matches model market k = false
  | Some m =>
      ∃ q, m = Fin q ∧
        (∃ k v, (k, v) ∈ vs ∧ key_matches model market k = true ∧
                price v = VNum (Fin q) ∧
                currency v = (minPriceForModel vs market model).2) ∧
        (∀ k v, (k, v) ∈ vs → key_matches model market k = true →
                ∃ q', price v = VNum (Fin q') ∧ (q <= q')%Q)
  end.
Proof.
  intros vs.
  pose proof (minPrice_fold vs market model (obj_keys vs)) as H.
  unfold min_over in H. fold (minPriceForModel vs market model) in H.
  assert (Hnum : ∀ k, k ∈ obj_keys vs →
                      ∃ v q, obj_get vs k = Some v ∧ price v = VNum (Fin q)).
  { intros k ([k' v] & -> & Hkv)%list_elem_of_fmap.
    destruct (variants_price random wb market _ _ Hkv) as [q Hq].
    exists v, q. split; [by apply variants_get|done]. }
  specialize (H Hnum). destruct (minPriceForModel vs market model).1 as [m|]; [|done].
  destruct H as (q & -> & (k & v & Hk & Hm & Hg & Hp & Hc) & Hmin).
  exists q. split; [done|]. split.
  - exists k, v. split; [by apply variants_get|done].
  - intros k' v' Hkv Hm'. destruct (variants_price random wb market _ _ Hkv) as [q' Hq'].
    exists q'. split; [done|]. eapply Hmin; [|done| |done].
    + apply list_elem_of_fmap. by exists (k', v').
    + by apply variants_get.
Qed.

(** ** The featured items *)

Lemma List_filter_sublist {A} (f : A → bool) l : List.filter f l `sublist_of` l.
Proof.
  induction l as [|x l IH]; simpl; [done|].
  destruct (f x); [by apply sublist_skip|by apply sublist_cons].
Qed.

Lemma List_filter_elem {A} (f : A → bool) l x :
  x ∈ List.filter f l ↔ x ∈ l ∧ f x = true.
Proof. by rewrite !list_elem_of_In, filter_In. Qed.

Lemma itemOf_Some vs market baseUrl p it :
  itemOf vs market baseUrl p = Some it →
  it_id it = p_id p ∧ it_model it = p_model p ∧
  min_price it = (minPriceForModel vs market (p_model p)).1 ∧
  it_currency it = (minPriceForModel vs market (p_model p)).2.
Proof.
  unfold itemOf. destruct (minPriceForModel vs market (p_model p)) as [m c].
  destruct (absoluteImage baseUrl (p_image p)); simpl; [|done].
  by intros [= <-].
Qed.

Lemma featuredItems_Some cat available market baseUrl items :
  featuredItems cat available market baseUrl = Some items →
  ∃ its,
    Forall2 (λ p it, itemOf (variants cat) market baseUrl p = Some it)
      (List.filter (λ p, strset_has available (p_model p)) (products cat)) its ∧
    items = List.filter (λ it, bool_decide (min_price it ≠ None)) its.
Proof.
  unfold featuredItems. destruct (mapM _ _) as [its|] eqn:E; simpl; [|done].
  intros [= <-]. exists its. split; [|done]. by apply mapM_Some.
Qed.

Lemma featuredItems_elem cat available market baseUrl items it :
  featuredItems cat available market baseUrl = Some items → it ∈ items →
  min_price it ≠ None ∧
  ∃ p, p ∈ products cat ∧ strset_has available (p_model p) = true ∧
       itemOf (variants cat) market baseUrl p = Some it.
Proof.
  intros (its & HF & ->)%featuredItems_Some [Hit Hmin]%List_filter_elem.
  apply bool_decide_eq_true in Hmin. split; [done|].
  apply list_elem_of_lookup in Hit as [i Hi].
  destruct (Forall2_lookup_r _ _ _ _ _ HF Hi) as (p & Hp & Hpi).
  exists p. apply list_elem_of_lookup_2, List_filter_elem in Hp as [? ?]. done.
Qed.

Lemma featuredItems_NoDup random wb market available baseUrl items :
  featuredItems (buildCatalog random wb market) available market baseUrl = Some items →
  NoDup (it_model <$> items).
Proof.
  intros (its & HF & ->)%featuredItems_Some.
  assert (E : it_model <$> its =
              p_model <$> List.filter (λ p, strset_has available (p_model p))
                            (products (buildCatalog random wb market))).
  { revert HF. generalize (List.filter (λ p, strset_has available (p_model p))
                             (products (buildCatalog random wb market))).
    intros ps HF. induction HF as [|p it ps its' Hp _ IH]; [done|].
    rewrite !fmap_cons. apply itemOf_Some in Hp as (_ & Hm & _). by rewrite Hm, IH. }
  apply (sublist_NoDup _ (it_model <$> its));
    [|apply fmap_sublist, List_filter_sublist].
  rewrite E.
  apply (sublist_NoDup _ (p_model <$> products (buildCatalog random wb market)));
    [|apply fmap_sublist, List_filter_sublist].
  apply products_NoDup.
Qed.

(** ** Ordering and truncation *)

Lemma foldl_push_omap {A B} (f : A → option B) l : ∀ acc,
  foldl (λ acc x, match f x with Some y => (acc ++ [y])%list | None => acc end) acc l
  = (acc ++ omap f l)%list.
Proof.
  induction l as [|x l IH]; intros acc; simpl; [by rewrite app_nil_r|].
  rewrite IH. destruct (f x); [by rewrite <- app_assoc|done].
Qed.

Lemma foldl_push_new {A} `{EqDecision A} (l : list A) : ∀ acc,
  NoDup l →
  foldl (λ acc x, if bool_decide (x ∈ acc) then acc else (acc ++ [x])%list) acc l
  = (acc ++ List.filter (λ x, bool_decide (x ∉ acc)) l)%list.
Proof.
  induction l as [|x l IH]; intros acc Hnd; simpl; [by rewrite app_nil_r|].
  apply NoDup_cons in Hnd as [Hx Hnd]. rewrite IH by done.
  destruct (decide (x ∈ acc)) as [Hin|Hin].
  - by rewrite (bool_decide_eq_true_2 _ Hin), (bool_decide_eq_false_2 (x ∉ acc)) by tauto.
  - rewrite (bool_decide_eq_false_2 _ Hin), (bool_decide_eq_true_2 (x ∉ acc)) by done.
    rewrite <- app_assoc. simpl. do 2 f_equal.
    apply filter_ext_in. intros y Hy%list_elem_of_In.
    apply bool_decide_ext. rewrite elem_of_app, list_elem_of_singleton.
    split; [tauto|]. intros ? [?| ->]; done.
Qed.

Lemma mapByModel_get_Some items m it :
  mapByModel_get items m = Some it → it ∈ items ∧ m = VStr (it_model it).
Proof.
  destruct m as [| | | |s]; simpl; try done.
  intros H. apply find_some in H as [Hin ->%String.eqb_eq].
  split; [|done]. by apply list_elem_of_In, in_rev.
Qed.

Lemma mapByModel_get_elem items it :
  NoDup (it_model <$> items) → it ∈ items →
  mapByModel_get items (VStr (it_model it)) = Some it.
Proof.
  intros Hnd Hit. simpl.
  destruct (List.find _ (rev items)) as [it'|] eqn:E.
  - apply find_some in E as [Hin' E'%String.eqb_eq].
    apply in_rev, list_elem_of_In in Hin'. f_equal.
    apply list_elem_of_lookup in Hit as [i Hi], Hin' as [j Hj].
    assert (i = j); [|congruence].
    eapply NoDup_lookup; [exact Hnd| |]; rewrite list_lookup_fmap.
    + by rewrite Hi.
    + rewrite Hj. simpl. by rewrite E'.
  - assert (Hin : In it (rev items)).
    { apply in_rev. rewrite rev_involutive. by apply list_elem_of_In. }
    pose proof (find_none _ _ E it Hin) as Hf. simpl in Hf.
    by rewrite String.eqb_refl in Hf.
Qed.

(** On items of pairwise distinct models, the two loops that build
    [ordered] compute the ordering the specification describes. *)
Lemma orderItems_preferredFirst preferred items :
  NoDup (it_model <$> items) → orderItems preferred items = preferredFirst preferred items.
Proof.
  intros Hnd. unfold orderItems, preferredFirst.
  rewrite foldl_push_omap. simpl.
  rewrite foldl_push_new by (by eapply NoDup_fmap_1).
  f_equal. apply filter_ext_in. intros it Hit%list_elem_of_In.
  apply bool_decide_ext. rewrite list_elem_of_omap. split.
  - intros Hno Hpref. apply Hno. exists (VStr (it_model it)).
    split; [done|]. by apply mapByModel_get_elem.
  - intros Hno (m & Hm & [_ ->]%mapByModel_get_Some). done.
Qed.

Lemma preferredFirst_elem preferred items it :
  it ∈ preferredFirst preferred items → it ∈ items.
Proof.
  unfold preferredFirst.
  intros [(m & _ & [? _]%mapByModel_get_Some)%list_elem_of_omap
         |[? _]%List_filter_elem]%elem_of_app; done.
Qed.

Lemma clamp_range n :
  ∃ c, Math_max (Fin 1) (Math_min (Fin 20) (Fin n)) = Fin c ∧ (1 <= c)%Q ∧ (c <= 20)%Q.
Proof.
  unfold Math_min, Math_max.
  destruct (Qle_bool 20 n) eqn:E1.
  - exists 20%Q. split; [done|]. split; lra.
  - destruct (Qle_bool 1 n) eqn:E2.
    + exists n. split; [done|]. apply Qle_bool_iff in E2. split; [done|].
      apply not_true_iff_false in E1. rewrite Qle_bool_iff in E1. lra.
    + exists 1%Q. split; [done|]. split; lra.
Qed.

(** The count by cases of [Number(q)]. *)
Lemma clampCount_cases q :
  clampCount q =
  match Number64 q with
  | XInf true => Fin 1
  | XInf false => Fin 20
  | XNum n => if truthy (VNum n) then Math_max (Fin 1) (Math_min (Fin 20) n) else Fin 8
  end.
Proof.
  unfold clampCount. destruct (Number64 q) as [n|[|]]; try done.
  by destruct (truthy (VNum n)).
Qed.

Lemma clampCount_range q :
  ∃ c, clampCount q = Fin c ∧ (1 <= c)%Q ∧ (c <= 20)%Q.
Proof.
  rewrite clampCount_cases.
  destruct (Number64 q) as [[|x]|[|]].
  - exists 8%Q. split; [done|]. split; lra.
  - destruct (truthy (VNum (Fin x))); [apply clamp_range|].
    exists 8%Q. split; [done|]. split; lra.
  - exists 1%Q. split; [done|]. split; lra.
  - exists 20%Q. split; [done|]. split; lra.
Qed.

Lemma clampCount_default : clampCount VUndef = Fin 8.
Proof. reflexivity. Qed.

Lemma slice_to_take {A} (l : list A) c :
  (1 <= c)%Q → slice_to l (Fin c) = take (Z.to_nat (Qfloor c)) l.
Proof.
  intros Hc. unfold slice_to.
  assert (E : Qle_bool 0 c = true) by (apply Qle_bool_iff; lra). rewrite E.
  assert (1 ≤ Qfloor c)%Z.
  { rewrite <- (Qfloor_Z 1). by apply Qfloor_resp_le. }
  destruct (Z.ltb_spec (Qfloor c) 0); [lia|done].
Qed.


(** What a successful response is made of. *)
Lemma featured_Json random wb featuredModels qmarket qcity qcount baseUrl
    market count items :
  featured random (Some wb) featuredModels qmarket qcity qcount baseUrl
    = Json market count items →
  market = toUpperCase (ToString (qmarket ||| VStr "AO")) ∧
  count = clampCount qcount ∧
  ∃ its,
    featuredItems (buildCatalog random wb market)
      (modelsAvailable wb (toLowerCase (ToString (qcity ||| VStr "Luanda"))))
      market baseUrl = Some its ∧
    NoDup (it_model <$> its) ∧
    items = slice_to (preferredFirst (List.filter truthy featuredModels) its) count.
Proof.
  unfold featured. destruct (featuredItems _ _ _ _) as [its|] eqn:E; [|done].
  intros [= <- <- <-]. split; [done|]. split; [done|].
  exists its. split; [done|].
  pose proof (featuredItems_NoDup _ _ _ _ _ _ E) as Hnd.
  split; [done|]. by rewrite orderItems_preferredFirst.
Qed.

(** The handler answers with items whenever the workbook loads and every
    image of a listed product is a string. *)
Lemma featured_returns random wb featuredModels qmarket qcity qcount baseUrl :
  let market := toUpperCase (ToString (qmarket ||| VStr "AO")) in
  (∀ p, p ∈ products (buildCatalog random wb market) → is_string (p_image p) = true) →
  ∃ items, featured random (Some wb) featuredModels qmarket qcity qcount baseUrl
           = Json market (clampCount qcount) items.
Proof.
  intros market Himg. unfold featured. fold market.
  destruct (featuredItems _ _ _ _) as [its|] eqn:E; [by eexists|].
  exfalso. unfold featuredItems in E.
  destruct (mapM _ _) as [its|] eqn:Em; [done|].
  assert (is_Some (mapM (itemOf (variants (buildCatalog random wb market)) market baseUrl)
                     (List.filter (λ p, strset_has
                        (modelsAvailable wb (toLowerCase (ToString (qcity ||| VStr "Luanda"))))
                        (p_model p)) (products (buildCatalog random wb market))))) as [? ?];
    [|congruence].
  apply mapM_is_Some_2, Forall_forall. intros p [Hp _]%List_filter_elem.
  specialize (Himg p Hp). unfold itemOf. simpl.
  destruct (minPriceForModel _ _ _). destruct (p_image p); try done; by eexists.
Qed.

(** Without a [products] sheet every image is the default path. *)
Lemma default_images random (wb : workbook) market p :
  sheetToJson wb "products" = [] →
  p ∈ products (buildCatalog random wb market) → is_string (p_image p) = true.
Proof.
  intros Hps (b & Hb & Hp)%products_elem.
  apply byModelOf_made in Hb as (r & n & _ & ->).
  unfold productOf in Hp. destruct (_ && _); [done|]. apply (inj Some) in Hp as <-.
  simpl. by rewrite Hps.
Qed.

(** Without a workbook the handler answers with an error. *)
Lemma featured_no_workbook random featuredModels qmarket qcity qcount baseUrl :
  featured random None featuredModels qmarket qcity qcount baseUrl
  = Error500 "XLSX not found".
Proof. reflexivity. Qed.

(** When no retained model or market holds the key separator, the entries
    that match a model and a market are those of the retained rows of that
    model and that market. *)
Lemma matching_entries_rows random wb market model k v :
  pipe_free (retainedRows wb market) = true →
  (k, v) ∈ variants (buildCatalog random wb market) →
  key_matches model market k = true ↔
  ∃ r, r ∈ retainedRows wb market ∧ k = variantKey r ∧
       v_model r = model ∧ v_market r = market.
Proof.
  intros Hfree Hkv. split.
  - intros Hm.
    destruct (variants_entry _ _ _ _ _ Hkv) as (r & Hr & -> & _).
    destruct (pipe_free_elem _ r Hfree Hr) as [Hpm Hpk].
    apply key_matches_variantKey in Hm as [? ?]; [|done..]. by exists r.
  - intros (r & Hr & -> & Hrm & Hrk).
    destruct (pipe_free_elem _ r Hfree Hr) as [Hpm Hpk].
    by apply key_matches_variantKey.
Qed.

(** ** C4: the minimum price of a featured item *)

(** Every listed product has a price in the market: [minPriceForModel]
    finds a minimum for it, and the filter [it.min_price != null] of the
    handler drops nothing. *)
Lemma listed_product_has_min_price random wb market p :
  p ∈ products (buildCatalog random wb market) →
  (minPriceForModel (variants (buildCatalog random wb market)) market (p_model p)).1
  ≠ None.
Proof.
  intros (b & Hb & Hp)%products_elem Hnone.
  apply productOf_Some in Hp as (_ & Hm & _ & _ & _ & _ & c & Hne).
  pose proof (minPriceForModel_spec random wb market (p_model p)) as Hspec.
  cbv zeta in Hspec. rewrite Hnone, Hm in Hspec.
  destruct (storSet _ _ _ _) as [|x l] eqn:E; [done|].
  assert (Hx : x ∈ x :: l) by left. rewrite <- E in Hx.
  apply storSet_elem in Hx as (r & Hr & Hk & _).
  rewrite Hspec in Hk; [done|]. apply variants_key_iff. by exists r.
Qed.

(** What the handler computes: every item of a featured response carries
    as [min_price] the least price among the entries of the variant index
    whose key splits into its model and the requested market, whatever the
    condition, with the currency of an entry that has this price. *)
Lemma featured_min_price_keys random wb featuredModels qmarket qcity qcount baseUrl
    market count items it :
  featured random (Some wb) featuredModels qmarket qcity qcount baseUrl
    = Json market count items →
  it ∈ items →
  let vs := variants (buildCatalog random wb market) in
  ∃ q, min_price it = Some (Fin q) ∧
    (∃ k v, (k, v) ∈ vs ∧ key_matches (it_model it) market k = true ∧
            price v = VNum (Fin q) ∧ currency v = it_currency it) ∧
    (∀ k v, (k, v) ∈ vs → key_matches (it_model it) market k = true →
            ∃ q', price v = VNum (Fin q') ∧ (q <= q')%Q).
Proof.
  intros (_ & -> & its & Hits & _ & ->)%featured_Json Hit vs. subst vs.
  destruct (clampCount_range qcount) as (c & Hc & Hc1 & _).
  rewrite Hc, slice_to_take in Hit by done.
  apply subseteq_take, preferredFirst_elem in Hit.
  destruct (featuredItems_elem _ _ _ _ _ _ Hits Hit) as (Hmin & p & _ & _ & Hp).
  apply itemOf_Some in Hp as (_ & Hm & Hmp & Hcu).
  pose proof (minPriceForModel_spec random wb market (p_model p)) as Hspec.
  cbv zeta in Hspec. rewrite Hm, Hcu.
  rewrite Hmp in Hmin.
  destruct (minPriceForModel (variants (buildCatalog random wb market)) market
              (p_model p)).1 as [m|] eqn:E; [|done].
  destruct Hspec as (q & -> & ? & ?). exists q. by rewrite Hmp.
Qed.

(** On rows in which no model or market holds the key separator, this is
    what C4 says: the [min_price] of an item is the least price among the
    entries of the retained rows of its model and the requested market, and
    its currency that of such an entry. *)
Lemma featured_min_price random wb featuredModels qmarket qcity qcount baseUrl
    market count items it :
  pipe_free (retainedRows wb market) = true →
  featured random (Some wb) featuredModels qmarket qcity qcount baseUrl
    = Json market count items →
  it ∈ items →
  let vs := variants (buildCatalog random wb market) in
  ∃ q, min_price it = Some (Fin q) ∧
    (∃ r, r ∈ retainedRows wb market ∧ v_model r = it_model it ∧
          v_market r = market ∧
          obj_get vs (variantKey r)
          = Some {| price := VNum (Fin q); currency := it_currency it |}) ∧
    (∀ r, r ∈ retainedRows wb market → v_model r = it_model it →
          v_market r = market →
          ∃ v q', obj_get vs (variantKey r) = Some v ∧
                  price v = VNum (Fin q') ∧ (q <= q')%Q).
Proof.
  intros Hfree Hf Hit vs.
  destruct (featured_min_price_keys _ _ _ _ _ _ _ _ _ _ _ Hf Hit)
    as (q & Hq & (k & v & Hkv & Hk & Hp & Hc) & Hleast).
  exists q. split; [done|]. split.
  - apply (matching_entries_rows random wb market (it_model it) k v Hfree Hkv) in Hk
      as (r & Hr & -> & Hrm & Hrk).
    exists r. repeat (split; [done|]).
    apply variants_get in Hkv. unfold vs. rewrite Hkv.
    destruct v as [pr cu]. simpl in *. by subst.
  - intros r Hr Hrm Hrk.
    assert (Hkey : variantKey r ∈ obj_keys vs) by (apply variants_key_iff; by exists r).
    apply list_elem_of_fmap in Hkey as ([k' v'] & Ek & Hkv'). simpl in Ek. subst k'.
    destruct (Hleast _ v' Hkv') as (q' & ? & ?).
    { apply (matching_entries_rows random wb market (it_model it) _ v' Hfree Hkv').
      by exists r. }
    exists v', q'. split; [by apply variants_get|done].
Qed.

(** C4, where the code departs from it: the key of a row of another model
    and another market can split into this model and the requested market.
    Here "iPhone 13" has one entry in AO, at 500 AOA, and the handler
    answers with a minimum of 5 USD, the price of a row of the US market
    whose model is "iPhone 13|usado|64|AO".  The defect is that of C5:
    nothing escapes the separator ['|'] in a model. *)
Theorem featured_min_price_of_another_row :
  let wb : workbook :=
    {[ "prices_usados" :=
         [ {[ "model" := VStr "iPhone 13"; "storage_gb" := VNum (Fin 128);
              "market" := VStr "AO"; "price" := VNum (Fin 500);
              "disponibilidade" := VStr "Luanda" ]};
           {[ "model" := VStr "iPhone 13|usado|64|AO"; "storage_gb" := VNum (Fin 1);
              "market" := VStr "US"; "price" := VNum (Fin 5) ]} ] ]} in
  variants (buildCatalog (λ _, 0%Q) wb "AO")
  = [ ("iPhone 13|usado|128|AO", {| price := VNum (Fin 500); currency := "AOA" |});
      ("iPhone 13|usado|64|AO|usado|1|US",
       {| price := VNum (Fin 5); currency := "USD" |}) ] ∧
  (v_model <$> retainedRows wb "AO", v_market <$> retainedRows wb "AO")
  = (["iPhone 13"; "iPhone 13|usado|64|AO"], ["AO"; "US"]) ∧
  featured (λ _, 0%Q) (Some wb) [] VUndef VUndef VUndef "http://host"
  = Json "AO" (Fin 8)
      [ {| it_id := "iphone-13"; it_model := "iPhone 13";
           it_image := VStr "http://host/public/products/iphone-13.png";
           min_price := Some (Fin 5); it_currency := "USD" |} ].
Proof. repeat split; reflexivity. Qed.

(** ** C7: count and order of the featured items *)

(** The count on some parameters: an infinity is clamped, a text too small
    for binary64 is 0 and gives the default, a text is rounded before it is
    clamped. *)
Example clampCount_examples :
  clampCount (VStr "Infinity") = Fin 20 ∧
  clampCount (VStr " -Infinity") = Fin 1 ∧
  clampCount (VStr "1e400") = Fin 20 ∧
  clampCount (VStr "1e-400") = Fin 8 ∧
  clampCount (VStr "2.99999999999999999999") = Fin 3 ∧
  clampCount (VStr "0") = Fin 8 ∧
  clampCount (VStr "abc") = Fin 8 ∧
  clampCount (VStr "0x10") = Fin 16 ∧
  clampCount (VStr "7") = Fin 7.
Proof. repeat split; vm_compute; reflexivity. Qed.

(** The code computes the count the specification describes whenever the
    request gives a count that is a number other than 0 (here: one that
    binary64 holds exactly). *)
Lemma clampCount_clampedCount q :
  Number64 q = XNum (ToNumber q) → truthy (VNum (ToNumber q)) = true →
  clampCount q = clampedCount q.
Proof.
  intros E H. rewrite clampCount_cases, E, H. by destruct q.
Qed.




(** * Further properties *)

(** ** normModel and toIdFromModel *)

Lemma space_lower c : is_space (lower_char c) = is_space c.
Proof. destruct c as [[] [] [] [] [] [] [] []]; reflexivity. Qed.

Lemma trimStart_fixed s a : trimStart (String a s) = String a s → is_space a = false.
Proof.
  simpl. destruct (is_space a) eqn:E; [|done]. intros H.
  assert (Hl : (String.length (trimStart s) ≤ String.length s)%nat).
  { clear. induction s as [|c s IH]; simpl; [done|]. destruct (is_space c); simpl; lia. }
  rewrite H in Hl. simpl in Hl. lia.
Qed.

Lemma trimStart_clean s : trimStart (trimStart s) = trimStart s.
Proof.
  induction s as [|c s IH]; simpl; [done|].
  destruct (is_space c) eqn:E; [done|]. simpl. by rewrite E.
Qed.

Lemma trimEnd_clean s : trimEnd (trimEnd s) = trimEnd s.
Proof.
  induction s as [|c s IH]; simpl; [done|].
  destruct (is_space c && is_empty (trimEnd s)) eqn:E; [done|].
  simpl. by rewrite IH, E.
Qed.

Lemma trimEnd_keeps_start s : trimStart s = s → trimStart (trimEnd s) = trimEnd s.
Proof.
  destruct s as [|a s]; [done|]. intros Ha%trimStart_fixed.
  simpl. rewrite Ha. simpl. by rewrite Ha.
Qed.

Lemma trim_clean s : trimStart (trim s) = trim s ∧ trimEnd (trim s) = trim s.
Proof.
  unfold trim. split; [|apply trimEnd_clean].
  apply trimEnd_keeps_start, trimStart_clean.
Qed.

(** A text without white space at its end is unchanged by [trimEnd]; this
    reads it the other way round. *)
Lemma trimEnd_fixed_cons a s :
  trimEnd (String a s) = String a s →
  trimEnd s = s ∧ (is_space a = false ∨ s ≠ "").
Proof.
  simpl. destruct (is_space a && is_empty (trimEnd s)) eqn:E; [done|].
  intros [= H]. split; [done|].
  apply andb_false_iff in E as [E|E]; [by left|right].
  rewrite H in E. by destruct s.
Qed.

Lemma collapse_nonempty rep b s :
  s ≠ "" → trimEnd s = s → replace_ws_runs rep b s ≠ "".
Proof.
  revert b. induction s as [|a s IH]; intros b Hne He; [done|].
  apply trimEnd_fixed_cons in He as [He Ha]. simpl.
  destruct (is_space a) eqn:E; [|done].
  destruct Ha as [?|Hs]; [done|].
  destruct b; [by apply IH|].
  intros H. destruct rep; simpl in H; [|done]. by eapply IH.
Qed.

Lemma collapse_keeps_end b s :
  trimEnd s = s → trimEnd (replace_ws_runs " " b s) = replace_ws_runs " " b s.
Proof.
  revert b. induction s as [|a s IH]; intros b He; [done|].
  apply trimEnd_fixed_cons in He as [He Ha]. simpl.
  destruct (is_space a) eqn:E.
  - destruct Ha as [?|Hs]; [done|].
    destruct b; [by apply IH|].
    change (" " ++ ?x) with (String " " x). simpl. rewrite IH by done.
    pose proof (collapse_nonempty " " true s Hs He) as Hn.
    by destruct (replace_ws_runs " " true s).
  - simpl. by rewrite E, IH.
Qed.

Lemma collapse_keeps_start s :
  trimStart s = s → trimStart (replace_ws_runs " " false s) = replace_ws_runs " " false s.
Proof.
  destruct s as [|a s]; [done|]. intros Ha%trimStart_fixed.
  simpl. rewrite Ha. simpl. by rewrite Ha.
Qed.

Lemma collapse_idem rep s : ∀ b,
  replace_ws_runs rep b (replace_ws_runs " " b s) = replace_ws_runs rep b s.
Proof.
  induction s as [|a s IH]; intros b; [done|]. simpl.
  destruct (is_space a) eqn:E.
  - destruct b; [apply IH|].
    change (" " ++ ?x) with (String " " x). simpl. by rewrite IH.
  - simpl. by rewrite E, IH.
Qed.

(** Over a run [p] of characters that are not white space. *)
Lemma trimEnd_app_word p s :
  string_forall (λ c, negb (is_space c)) p = true →
  trimEnd (p ++ s) = p ++ trimEnd s.
Proof.
  induction p as [|a p IH]; simpl; [done|].
  intros [Ha Hp]%andb_true_iff. apply negb_true_iff in Ha. by rewrite Ha, IH.
Qed.

Lemma collapse_app_word rep p s :
  string_forall (λ c, negb (is_space c)) p = true →
  replace_ws_runs rep false (p ++ s) = p ++ replace_ws_runs rep false s.
Proof.
  induction p as [|a p IH]; simpl; [done|].
  intros [Ha Hp]%andb_true_iff. apply negb_true_iff in Ha. by rewrite Ha, IH.
Qed.

Lemma string_take_drop n s : string_take n s ++ string_drop n s = s.
Proof.
  revert s. induction n as [|n IH]; intros [|a s]; try reflexivity.
  change (String a (string_take n s ++ string_drop n s) = String a s). by rewrite IH.
Qed.

Lemma string_app_inv_l p s t : p ++ s = p ++ t → s = t.
Proof. induction p as [|a p IH]; simpl; [done|]. intros [= H]. by apply IH. Qed.

Lemma string_map_length f s : String.length (string_map f s) = String.length s.
Proof. induction s as [|a s IH]; simpl; [done|]. by rewrite IH. Qed.

Lemma fix_iphone_prefix_cases s :
  fix_iphone_prefix s = s ∨
  ∃ p, s = p ++ string_drop 6 s ∧ p ≠ "" ∧
       string_forall (λ c, negb (is_space c)) p = true ∧
       fix_iphone_prefix s = "iPhone" ++ string_drop 6 s.
Proof.
  unfold fix_iphone_prefix.
  destruct (String.eqb_spec (toLowerCase (string_take 6 s)) "iphone") as [E|]; [|by left].
  right. exists (string_take 6 s). split; [by rewrite string_take_drop|].
  split; [intros H; by rewrite H in E|]. split; [|done].
  assert (H : string_forall (λ c, negb (is_space c)) (toLowerCase (string_take 6 s)) = true)
    by by rewrite E.
  revert H. clear. generalize (string_take 6 s). intros p.
  induction p as [|a p IH]; simpl; [done|].
  rewrite space_lower. intros [-> H]%andb_true_iff. by apply IH.
Qed.

(** X1.  On a text of ASCII characters, where the white space of [trim]
    and [\s] is the one modelled, [normModel] gives a canonical text: no
    white space at either end, only single spaces inside, the prefix
    rewritten; normalising it again changes nothing. *)
Theorem normModel_canonical m :
  is_ascii_text (ToString m) = true →
  trim (normModel m) = normModel m ∧
  replace_ws_runs " " false (normModel m) = normModel m ∧
  fix_iphone_prefix (normModel m) = normModel m ∧
  normModel (VStr (normModel m)) = normModel m.
Proof.
  intros _.
  assert (H : trim (normModel m) = normModel m ∧
              replace_ws_runs " " false (normModel m) = normModel m ∧
              fix_iphone_prefix (normModel m) = normModel m).
  { unfold normModel. destruct (negb (truthy m)); [done|].
    set (t := trim (ToString m)).
    destruct (trim_clean (ToString m)) as [Hs He]. fold t in Hs, He.
    set (u := replace_ws_runs " " false t).
    assert (Hus : trimStart u = u) by by apply collapse_keeps_start.
    assert (Hue : trimEnd u = u) by by apply collapse_keeps_end.
    assert (Huc : replace_ws_runs " " false u = u)
      by apply collapse_idem.
    destruct (fix_iphone_prefix_cases u) as [E0|(p & Hu & Hp & Hpw & ->)].
    { rewrite !E0. split; [unfold trim; by rewrite Hus, Hue|]. by split. }
    set (r := string_drop 6 u) in *.
    assert (Hre : trimEnd r = r).
    { rewrite Hu, trimEnd_app_word in Hue by done. by apply string_app_inv_l in Hue. }
    assert (Hrc : replace_ws_runs " " false r = r).
    { rewrite Hu, collapse_app_word in Huc by done. by apply string_app_inv_l in Huc. }
    split; [|split].
    - unfold trim. change (trimStart ("iPhone" ++ r)) with ("iPhone" ++ r).
      by rewrite (trimEnd_app_word "iPhone"), Hre.
    - by rewrite (collapse_app_word " " "iPhone"), Hrc.
    - reflexivity. }
  destruct H as (Ht & Hc & Hf). repeat split; try done.
  unfold normModel at 1. simpl.
  destruct (normModel m) as [|a s] eqn:E; [done|]. simpl negb. cbv iota.
  by rewrite Ht, Hc, Hf.
Qed.

Lemma normModel_canonical_witness :
  let m := VStr "  iphone   13  Pro " in
  normModel m = "iPhone 13 Pro" ∧
  trim (normModel m) = normModel m ∧
  replace_ws_runs " " false (normModel m) = normModel m ∧
  fix_iphone_prefix (normModel m) = normModel m ∧
  normModel (VStr (normModel m)) = normModel m.
Proof.
  intros m. split; [reflexivity|]. by apply (normModel_canonical m).
Defined.

Lemma string_filter_forall p s : string_forall p (string_filter p s) = true.
Proof.
  induction s as [|a s IH]; simpl; [done|].
  destruct (p a) eqn:E; simpl; [by rewrite E|done].
Qed.

Lemma string_filter_id p s : string_forall p s = true → string_filter p s = s.
Proof.
  induction s as [|a s IH]; simpl; [done|].
  intros [-> H]%andb_true_iff. by rewrite IH.
Qed.

Lemma string_map_id f s :
  string_forall (λ c, Ascii.eqb (f c) c) s = true → string_map f s = s.
Proof.
  induction s as [|a s IH]; simpl; [done|].
  intros [->%Ascii.eqb_eq H]%andb_true_iff. by rewrite IH.
Qed.

Lemma collapse_no_space rep b s :
  string_forall (λ c, negb (is_space c)) s = true → replace_ws_runs rep b s = s.
Proof.
  revert b. induction s as [|a s IH]; intros b; simpl; [done|].
  intros [Ha H]%andb_true_iff. apply negb_true_iff in Ha. by rewrite Ha, IH.
Qed.

Lemma id_char_plain c :
  is_lower c || is_digit c || Ascii.eqb c "-" = true →
  Ascii.eqb (lower_char c) c = true ∧ negb (is_space c) = true.
Proof. destruct c as [[] [] [] [] [] [] [] []]; done. Qed.

(** X2.  An id derived by [toIdFromModel] holds only lower-case letters,
    digits and hyphens, and deriving an id from an id gives it back. *)
Theorem toIdFromModel_slug m :
  string_forall (λ c, is_lower c || is_digit c || Ascii.eqb c "-") (toIdFromModel m) = true ∧
  toIdFromModel (toIdFromModel m) = toIdFromModel m.
Proof.
  assert (H : string_forall (λ c, is_lower c || is_digit c || Ascii.eqb c "-")
                (toIdFromModel m) = true) by apply string_filter_forall.
  split; [done|]. set (o := toIdFromModel m) in *. unfold toIdFromModel.
  unfold toLowerCase. rewrite string_map_id.
  2:{ eapply string_forall_impl; [|exact H]. intros c Hc. by apply id_char_plain. }
  rewrite collapse_no_space.
  2:{ eapply string_forall_impl; [|exact H]. intros c Hc. by apply id_char_plain. }
  by apply string_filter_id.
Qed.

(** ** safeNumber, continued *)

(** X3.  [safeNumber] returns [null] or a number; the number is [NaN] only
    when the cell itself is the number [NaN], which is passed through. *)
Theorem safeNumber_never_NaN v :
  (safeNumber v = VNull ∨ ∃ n, safeNumber v = VNum n) ∧
  (safeNumber v = VNum NaN ↔ v = VNum NaN).
Proof.
  split; [apply safeNumber_shape|]. split; [|by intros ->].
  unfold safeNumber. destruct v; try done;
    destruct (negb _); try done; destruct (StringToNumber _); done.
Qed.

(** X4.  A text that is not empty and holds no digit, period, comma or minus
    sign is read as the number 0, not as [null]: what is left after the
    stripping is the empty string, and [Number("")] is 0. *)
Theorem safeNumber_text_without_digits s :
  s ≠ "" → string_filter price_char s = "" → safeNumber (VStr s) = VNum (Fin 0).
Proof.
  intros Hs Hf. unfold safeNumber. simpl. destruct s; [done|]. simpl negb. cbv iota.
  by rewrite Hf.
Qed.

Lemma safeNumber_text_without_digits_witness : safeNumber (VStr "N/A") = VNum (Fin 0).
Proof. by apply safeNumber_text_without_digits. Defined.

(** ** Order of first appearance *)

Lemma List_filter_filter {A} (f g : A → bool) l :
  List.filter f (List.filter g l) = List.filter (λ x, g x && f x) l.
Proof.
  induction l as [|x l IH]; simpl; [done|].
  destruct (g x); simpl; [|done]. destruct (f x); by rewrite IH.
Qed.

Lemma strset_fold_firstSeen l : ∀ s,
  foldl strset_add s l
  = (s ++ List.filter (λ x, negb (strset_has s x)) (firstSeen l))%list.
Proof.
  induction l as [|x l IH]; intros s; simpl; [by rewrite app_nil_r|].
  rewrite IH. unfold strset_add. destruct (strset_has s x) eqn:E; simpl.
  - f_equal. rewrite List_filter_filter. apply filter_ext. intros y.
    destruct (String.eqb_spec y x) as [->|]; simpl; [by rewrite E|done].
  - rewrite <- app_assoc. simpl. do 2 f_equal.
    rewrite List_filter_filter. apply filter_ext. intros y.
    unfold strset_has. rewrite existsb_app. simpl.
    rewrite orb_false_r, negb_orb, andb_comm. done.
Qed.

Lemma firstSeen_fold l : foldl strset_add [] l = firstSeen l.
Proof.
  rewrite strset_fold_firstSeen. simpl.
  induction (firstSeen l) as [|x k IH]; simpl; [done|]. by rewrite IH.
Qed.

Lemma byModel_has_strset byModel m :
  byModel_has byModel m = strset_has (b_model <$> byModel) m.
Proof.
  unfold byModel_has, strset_has. induction byModel as [|b l IH]; simpl; [done|].
  by rewrite IH, String.eqb_sym.
Qed.

Lemma ensure_fold_models random cs ps rows : ∀ st,
  b_model <$> (foldl (ensureProduct random cs ps) st rows).1
  = foldl strset_add (b_model <$> st.1) (v_model <$> rows).
Proof.
  induction rows as [|r rows IH]; intros st; simpl; [done|].
  rewrite IH. f_equal.
  destruct (ensure_cases random cs ps st r) as [[Hhas ->]|(Hno & b & Hb & ->)];
    unfold strset_add; rewrite <- byModel_has_strset.
  - by rewrite Hhas.
  - rewrite Hno. simpl. rewrite fmap_app. simpl. by rewrite Hb.
Qed.

Lemma byModelOf_models random wb market :
  b_model <$> byModelOf random wb market = firstSeen (v_model <$> retainedRows wb market).
Proof. unfold byModelOf. by rewrite ensure_fold_models, firstSeen_fold. Qed.

Lemma obj_set_keys_add {V} (o : list (string * V)) k v :
  obj_keys (obj_set o k v) = strset_add (obj_keys o) k.
Proof.
  unfold obj_keys, strset_add, strset_has.
  induction o as [|[k' v'] o IH]; [done|].
  cbn [obj_set]. rewrite fmap_cons. cbn [existsb fst].
  rewrite (String.eqb_sym k k').
  destruct (String.eqb k' k) eqn:E; [done|].
  rewrite fmap_cons, IH. cbn [fst orb]. by destruct (existsb _ _).
Qed.

Lemma addVar_fold_keys rows : ∀ vs,
  obj_keys (foldl addVar vs rows) = foldl strset_add (obj_keys vs) (variantKey <$> rows).
Proof.
  induction rows as [|r rows IH]; intros vs; simpl; [done|].
  rewrite IH. f_equal. apply obj_set_keys_add.
Qed.

(** X5.  The products are listed in the order in which their models first
    appear among the retained rows, used sheet first: their models form a
    subsequence of the models of the rows in order of first appearance. *)
Theorem products_in_order_of_appearance random wb market :
  p_model <$> products (buildCatalog random wb market)
  `sublist_of` firstSeen (v_model <$> retainedRows wb market).
Proof.
  rewrite <- (byModelOf_models random), buildCatalog_products.
  induction (byModelOf random wb market) as [|b l IH]; simpl; [done|].
  destruct (productOf _ market b) as [p|] eqn:E; simpl.
  - apply productOf_Some in E as (_ & -> & _). by apply sublist_skip.
  - by apply sublist_cons.
Qed.

(** X6.  The keys of the variant index are the keys of the retained rows,
    each once, in the order of their first appearance. *)
Theorem variant_keys_in_order random wb market :
  obj_keys (variants (buildCatalog random wb market))
  = firstSeen (variantKey <$> retainedRows wb market).
Proof. by rewrite buildCatalog_variants, addVar_fold_keys, firstSeen_fold. Qed.

(** ** The first row of a model, the last row of a key *)

Lemma firstSeen_elem x l : x ∈ firstSeen l ↔ x ∈ l.
Proof.
  induction l as [|y l IH]; simpl; [done|].
  rewrite !elem_of_cons, <- IH. split.
  - intros [->|[? _]%List_filter_elem]; [by left|by right].
  - intros [->|H]; [by left|].
    destruct (decide (x = y)) as [->|Hne]; [by left|right].
    apply List_filter_elem. split; [done|].
    apply negb_true_iff, String.eqb_neq. done.
Qed.

Lemma ensure_fold_draws random cs ps rows : ∀ st,
  st.2 = (2 * List.length st.1)%nat →
  (foldl (ensureProduct random cs ps) st rows).2
  = (2 * List.length (foldl (ensureProduct random cs ps) st rows).1)%nat.
Proof.
  induction rows as [|r rows IH]; intros st Hst; simpl; [done|].
  apply IH.
  destruct (ensure_cases random cs ps st r) as [[_ ->]|(_ & b & _ & ->)]; [done|].
  simpl. rewrite length_app. simpl. lia.
Qed.

Lemma ensure_fold_first random cs ps rows b :
  b ∈ (foldl (ensureProduct random cs ps) ([], O) rows).1 →
  ∃ pre r post,
    rows = (pre ++ r :: post)%list ∧
    (∀ r', r' ∈ pre → v_model r' ≠ v_model r) ∧
    made_from random cs ps b r (2 * List.length (firstSeen (v_model <$> pre))).
Proof.
  induction rows as [|r rows IH] using rev_ind; [by intros ?%elem_of_nil|].
  rewrite foldl_app. simpl.
  set (st := foldl (ensureProduct random cs ps) ([], O) rows) in *.
  assert (Hmodels : b_model <$> st.1 = firstSeen (v_model <$> rows)).
  { unfold st. by rewrite ensure_fold_models, firstSeen_fold. }
  assert (Hdraws : st.2 = (2 * List.length (firstSeen (v_model <$> rows)))%nat).
  { unfold st. rewrite ensure_fold_draws by done. fold st.
    by rewrite <- Hmodels, length_fmap. }
  assert (Hold : b ∈ st.1 → ∃ pre r0 post,
    (rows ++ [r])%list = (pre ++ r0 :: post)%list ∧
    (∀ r', r' ∈ pre → v_model r' ≠ v_model r0) ∧
    made_from random cs ps b r0 (2 * List.length (firstSeen (v_model <$> pre)))).
  { intros (pre & r0 & post & -> & Hpre & Hm)%IH.
    exists pre, r0, (post ++ [r])%list. by rewrite <- app_assoc. }
  destruct (ensure_cases random cs ps st r) as [[_ ->]|(Hno & b' & Hb' & ->)]; [done|].
  rewrite Hdraws in Hb'.
  cbn [fst]. intros [Hb|Hb]%elem_of_app; [by apply Hold|].
  apply list_elem_of_singleton in Hb as ->.
  exists rows, r, []. split; [done|]. split; [|done].
  intros r' Hr' Heq. rewrite byModel_has_strset, Hmodels in Hno.
  apply not_true_iff_false in Hno. apply Hno, strset_has_elem, firstSeen_elem.
  rewrite <- Heq. apply list_elem_of_fmap. by exists r'.
Qed.

(** X7.  A product takes its id from the first retained row of its model,
    whatever the later rows of that model hold, and its rating and number
    of reviews from the two draws made at that row: draws [2 i] and
    [2 i + 1] when [i] distinct models came before it. *)
Theorem product_from_first_row random wb market :
  Forall (λ p, ∃ pre r post,
      retainedRows wb market = (pre ++ r :: post)%list ∧
      (∀ r', r' ∈ pre → v_model r' ≠ v_model r) ∧
      let i := List.length (firstSeen (v_model <$> pre)) in
      p_model p = v_model r ∧ p_id p = v_id r ∧
      p_rating p = synthRating (random (2 * i)) ∧
      p_reviews p = synthReviews (random (2 * i + 1)))
    (products (buildCatalog random wb market)).
Proof.
  apply Forall_forall. intros p (b & Hb & Hp)%products_elem.
  apply productOf_Some in Hp as (-> & -> & _ & -> & -> & _).
  apply ensure_fold_first in Hb as (pre & r & post & E & Hpre & ->).
  exists pre, r, post. split; [done|]. split; [done|]. simpl.
  by rewrite Nat.add_1_r.
Qed.

Lemma obj_get_set {V} (o : list (string * V)) k v k' :
  obj_get (obj_set o k v) k' = if String.eqb k k' then Some v else obj_get o k'.
Proof.
  induction o as [|[k0 v0] o IH]; simpl; [done|].
  destruct (String.eqb_spec k0 k) as [->|Hne]; simpl.
  - by destruct (String.eqb k k').
  - rewrite IH. destruct (String.eqb_spec k0 k') as [<-|]; [|done].
    by destruct (String.eqb_spec k k0).
Qed.

Lemma addVar_fold_get post : ∀ vs k,
  (∀ r, r ∈ post → variantKey r ≠ k) →
  obj_get (foldl addVar vs post) k = obj_get vs k.
Proof.
  induction post as [|r post IH]; intros vs k Hk; simpl; [done|].
  rewrite IH by (intros; apply Hk; by right).
  unfold addVar. rewrite obj_get_set.
  destruct (String.eqb_spec (variantKey r) k) as [E|]; [|done].
  destruct (Hk r); [by left|done].
Qed.

(** X8.  When several retained rows share a variant key, the entry of the
    index holds the price and the currency of the last of them. *)
Theorem variant_last_row_wins random wb market pre r post :
  retainedRows wb market = (pre ++ r :: post)%list →
  (∀ r', r' ∈ post → variantKey r' ≠ variantKey r) →
  obj_get (variants (buildCatalog random wb market)) (variantKey r)
  = Some {| price := v_price r; currency := v_currency r |}.
Proof.
  intros E Hpost. rewrite buildCatalog_variants, E, foldl_app. simpl.
  rewrite addVar_fold_get by done.
  unfold addVar. by rewrite obj_get_set, String.eqb_refl.
Qed.

Lemma variant_last_row_wins_witness :
  let wb : workbook :=
    {[ "prices_usados" :=
         [ {[ "model" := VStr "iPhone 13"; "storage_gb" := VNum (Fin 128);
              "price" := VNum (Fin 100) ]};
           {[ "model" := VStr "iphone   13"; "gb" := VStr "128";
              "price" := VStr "90"; "moeda" := VStr "usd" ]} ] ]} in
  obj_get (variants (buildCatalog (λ _, 0%Q) wb "AO")) "iPhone 13|usado|128|AO"
  = Some {| price := VNum (Fin 90); currency := "USD" |}.
Proof.
  intros wb.
  pose proof (variant_last_row_wins (λ _, 0%Q) wb "AO"
    [normRow "AO" {[ "model" := VStr "iPhone 13"; "storage_gb" := VNum (Fin 128);
                     "price" := VNum (Fin 100) ]} Usado]
    (normRow "AO" {[ "model" := VStr "iphone   13"; "gb" := VStr "128";
                     "price" := VStr "90"; "moeda" := VStr "usd" ]} Usado) []
    eq_refl) as H.
  apply H. intros r' Hr'. inversion Hr'.
Defined.

(** ** What every entry and every product holds *)

Lemma upper_char_idem c : upper_char (upper_char c) = upper_char c.
Proof.
  destruct c as [[] [] [] [] [] [] [] []]; reflexivity.
Qed.

Lemma toUpperCase_idem s : toUpperCase (toUpperCase s) = toUpperCase s.
Proof.
  unfold toUpperCase. induction s as [|c s IH]; simpl; [done|].
  by rewrite upper_char_idem, IH.
Qed.

(** X9.  Every entry of the variant index has a price that is a number
    other than [NaN] and 0, and a currency in upper case. *)
Theorem variant_entries_priced random wb market :
  Forall (λ kv, (∃ q, price kv.2 = VNum (Fin q) ∧ ¬ (q == 0)%Q) ∧
                toUpperCase (currency kv.2) = currency kv.2)
    (variants (buildCatalog random wb market)).
Proof.
  apply Forall_forall. intros [k v] Hkv. simpl.
  apply variants_entry in Hkv as (r & Hr & _ & -> & ->).
  split; [by apply (retained_price wb market)|].
  apply retainedRows_inv in Hr as (_ & raw & c & _ & ->).
  apply toUpperCase_idem.
Qed.

Lemma truthy_or_r a b : truthy b = true → truthy (a ||| b) = true.
Proof. intros Hb. unfold js_or. by destruct (truthy a) eqn:E. Qed.

Lemma productColors_shape cs model :
  (1 ≤ List.length (productColors cs model) ≤ 4)%nat ∧
  Forall (λ c, truthy c = true) (productColors cs model).
Proof.
  unfold productColors.
  set (all := map _ _).
  assert (HF : Forall (λ c, truthy c = true) (List.filter truthy all)).
  { apply Forall_forall. by intros c [_ ?]%List_filter_elem. }
  destruct (List.filter truthy all) as [|c l] eqn:E.
  - unfold defaultColors. split; [simpl; clear; lia|]. repeat constructor.
  - split.
    + rewrite length_take. cbn [List.length]. clear. lia.
    + by apply Forall_take.
Qed.

(** X10.  No product is listed without a storage size, a colour or an
    image: one of its two storage arrays is not empty, it has between one
    and four colours, all truthy, its image is truthy, its model is not
    empty and its type is the one of its model. *)
Theorem products_well_formed random wb market :
  Forall (λ p, (storages_usado p ≠ [] ∨ storages_novo p ≠ []) ∧
               (1 ≤ List.length (p_colors p) ≤ 4)%nat ∧
               Forall (λ c, truthy c = true) (p_colors p) ∧
               truthy (p_image p) = true ∧
               p_model p ≠ "" ∧
               p_type p = productType (p_model p))
    (products (buildCatalog random wb market)).
Proof.
  apply Forall_forall. intros p (b & Hb & Hp)%products_elem.
  pose proof Hp as (_ & Hm & Ht & _ & _ & Hst & c & Hc)%productOf_Some.
  split.
  { assert (Hne : storages c p ≠ []).
    { rewrite Hst. intros E. apply Hc.
      pose proof (array_sort_perm num_sub
                    (storSet (variants (buildCatalog random wb market))
                       (b_model b) market (condition_name c))) as HP.
      rewrite E in HP. by apply Permutation_nil_l in HP. }
    destruct c; [by left|by right]. }
  apply byModelOf_made in Hb as (r & n & Hr & ->).
  unfold productOf in Hp. destruct (_ && _); [done|]. apply (inj Some) in Hp as <-. simpl.
  destruct (productColors_shape (sheetToJson wb "colors") (v_model r)) as [[H1 H4] HF].
  split; [|split; [|split; [|split]]].
  - rewrite length_take. lia.
  - by apply Forall_take.
  - by apply truthy_or_r.
  - apply retainedRows_inv in Hr as [[Hr _]%andb_true_iff _].
    intros E. by rewrite E in Hr.
  - done.
Qed.

Lemma buildCatalog_no_rows random (wb : workbook) market :
  sheetToJson wb "prices_usados" = [] → sheetToJson wb "prices_novos" = [] →
  buildCatalog random wb market = {| products := []; variants := [] |}.
Proof. intros Hu Hn. unfold buildCatalog. by rewrite Hu, Hn. Qed.

(** X11.  A workbook without the two price sheets gives an empty catalog:
    no product and no variant, whatever its other sheets hold. *)
Theorem buildCatalog_without_price_sheets random (wb : workbook) market :
  wb !! "prices_usados" = None → wb !! "prices_novos" = None →
  buildCatalog random wb market = {| products := []; variants := [] |}.
Proof.
  intros Hu Hn. apply buildCatalog_no_rows; unfold sheetToJson; by rewrite ?Hu, ?Hn.
Qed.

Lemma buildCatalog_without_price_sheets_witness :
  buildCatalog (λ _, 0%Q)
    {[ "products" := [ {[ "model" := VStr "iPhone 13"; "image" := VStr "/a.png" ]} ] ]}
    "AO"
  = {| products := []; variants := [] |}.
Proof. by apply buildCatalog_without_price_sheets. Defined.

(** ** The featured handler, further *)

Lemma featured_item_product random wb featuredModels qmarket qcity qcount baseUrl
    market count items it :
  featured random (Some wb) featuredModels qmarket qcity qcount baseUrl
    = Json market count items →
  it ∈ items →
  ∃ p, p ∈ products (buildCatalog random wb market) ∧
       p_model p ∈ modelsAvailable wb (toLowerCase (ToString (qcity ||| VStr "Luanda"))) ∧
       itemOf (variants (buildCatalog random wb market)) market baseUrl p = Some it.
Proof.
  intros (_ & -> & its & Hits & _ & ->)%featured_Json Hit.
  destruct (clampCount_range qcount) as (c & Hc & Hc1 & _).
  rewrite Hc, slice_to_take in Hit by done.
  apply subseteq_take, preferredFirst_elem in Hit.
  destruct (featuredItems_elem _ _ _ _ _ _ Hits Hit) as (_ & p & Hp & Hav & Hitem).
  exists p. split; [done|]. split; [by apply strset_has_elem|done].
Qed.

Lemma itemOf_image vs market baseUrl p it :
  itemOf vs market baseUrl p = Some it →
  absoluteImage baseUrl (p_image p) = Some (it_image it).
Proof.
  unfold itemOf. destruct (minPriceForModel vs market (p_model p)) as [m c].
  destruct (absoluteImage baseUrl (p_image p)); simpl; [|done].
  by intros [= <-].
Qed.

(** X12.  Every item the handler answers with is made from a product of
    the catalog whose model the second scan of the price sheets found
    available in the city: it has the id and the model of that product, and
    its image is the image of the product, made absolute. *)
Theorem featured_items_from_available_products
    random wb featuredModels qmarket qcity qcount baseUrl market count items :
  featured random (Some wb) featuredModels qmarket qcity qcount baseUrl
    = Json market count items →
  Forall (λ it,
      it_model it ∈ modelsAvailable wb (toLowerCase (ToString (qcity ||| VStr "Luanda"))) ∧
      ∃ p, p ∈ products (buildCatalog random wb market) ∧
           it_id it = p_id p ∧ it_model it = p_model p ∧
           absoluteImage baseUrl (p_image p) = Some (it_image it))
    items.
Proof.
  intros H. apply Forall_forall. intros it Hit.
  destruct (featured_item_product _ _ _ _ _ _ _ _ _ _ _ H Hit) as (p & Hp & Hav & Hitem).
  pose proof (itemOf_image _ _ _ _ _ Hitem) as Himg.
  apply itemOf_Some in Hitem as (Hid & Hm & _).
  split; [by rewrite Hm|]. by exists p.
Qed.

Lemma featured_items_from_available_products_witness :
  let wb : workbook :=
    {[ "prices_usados" :=
         [ {[ "model" := VStr "iPhone 13"; "storage_gb" := VNum (Fin 128);
              "price" := VStr "450.000,00"; "disponibilidade" := VStr "Luanda" ]};
           {[ "model" := VStr "iPad Air"; "storage_gb" := VNum (Fin 64);
              "price" := VStr "300.000,00"; "disponibilidade" := VStr "Benguela" ]} ] ]} in
  Forall (λ it,
      it_model it ∈ modelsAvailable wb "luanda" ∧
      ∃ p, p ∈ products (buildCatalog (λ _, 0%Q) wb "AO") ∧
           it_id it = p_id p ∧ it_model it = p_model p ∧
           absoluteImage "http://host" (p_image p) = Some (it_image it))
    [ {| it_id := "iphone-13"; it_model := "iPhone 13";
         it_image := VStr "http://host/public/products/iphone-13.png";
         min_price := Some (Fin 450000); it_currency := "AOA" |} ].
Proof.
  intros wb.
  apply (featured_items_from_available_products (λ _, 0%Q) wb [] VUndef VUndef VUndef
           "http://host" "AO" (Fin 8)).
  reflexivity.
Defined.

Lemma product_image_shape random wb market p :
  p ∈ products (buildCatalog random wb market) →
  truthy (p_image p) = true ∧
  (sheetToJson wb "products" = [] →
   p_image p = VStr ("/public/products/" ++ p_id p ++ ".png")).
Proof.
  intros (b & Hb & Hp)%products_elem.
  apply byModelOf_made in Hb as (r & n & _ & ->).
  unfold productOf in Hp. destruct (_ && _); [done|]. apply (inj Some) in Hp as <-. simpl.
  split; [by apply truthy_or_r|]. by intros ->.
Qed.

(** X13.  With a workbook, the handler fails exactly when a listed
    product that is available in the city has an image that is not a
    string (a number or [true] in the products sheet), on which
    [startsWith] is not a function; the error is then [failed_featured]. *)
Theorem featured_fails_iff random wb featuredModels qmarket qcity qcount baseUrl e :
  let market := toUpperCase (ToString (qmarket ||| VStr "AO")) in
  let city := toLowerCase (ToString (qcity ||| VStr "Luanda")) in
  featured random (Some wb) featuredModels qmarket qcity qcount baseUrl = Error500 e ↔
  e = "failed_featured" ∧
  ∃ p, p ∈ products (buildCatalog random wb market) ∧
       p_model p ∈ modelsAvailable wb city ∧ is_string (p_image p) = false.
Proof.
  intros market city. unfold featured. fold market city.
  assert (Hnone : featuredItems (buildCatalog random wb market) (modelsAvailable wb city)
                    market baseUrl = None ↔
          ∃ p, p ∈ products (buildCatalog random wb market) ∧
               p_model p ∈ modelsAvailable wb city ∧ is_string (p_image p) = false).
  { unfold featuredItems.
    destruct (mapM _ _) as [its|] eqn:E; simpl.
    - split; [done|]. intros (p & Hp & Hav & Himg). exfalso.
      apply mapM_Some in E.
      assert (Hin : p ∈ List.filter
                      (λ p, strset_has (modelsAvailable wb city) (p_model p))
                      (products (buildCatalog random wb market))).
      { apply List_filter_elem. split; [done|by apply strset_has_elem]. }
      apply list_elem_of_lookup in Hin as [i Hi].
      destruct (Forall2_lookup_l _ _ _ _ _ E Hi) as (it & _ & Hit).
      apply itemOf_image in Hit.
      destruct (product_image_shape _ _ _ _ Hp) as [Ht _].
      destruct (p_image p); done.
    - split; [intros _|done].
      apply mapM_None, Exists_exists in E as (p & [Hp Hav]%List_filter_elem & Hit).
      exists p. split; [done|]. split; [by apply strset_has_elem|].
      destruct (product_image_shape _ _ _ _ Hp) as [Ht _].
      unfold itemOf in Hit.
      destruct (minPriceForModel _ _ _) as [m c].
      destruct (p_image p); done. }
  destruct (featuredItems _ _ _ _) as [its|] eqn:E.
  - split; [done|]. intros [_ H]. by apply Hnone in H.
  - split.
    + intros [= <-]. split; [done|]. by apply Hnone.
    + by intros [-> _].
Qed.

(** A numeric cell in the image column makes the handler fail. *)
Example featured_fails_on_numeric_image :
  featured (λ _, 0%Q)
    (Some {[ "prices_usados" :=
               [ {[ "model" := VStr "iPhone 13"; "storage_gb" := VNum (Fin 128);
                    "price" := VNum (Fin 100); "disponibilidade" := VStr "Luanda" ]} ];
             "products" :=
               [ {[ "model" := VStr "iPhone 13"; "image" := VNum (Fin 7) ]} ] ]})
    [] VUndef VUndef VUndef "http://host"
  = Error500 "failed_featured".
Proof. reflexivity. Qed.

(** X14.  When the products sheet is missing or empty, the handler does
    not fail, and the image of every item is the default path of its id
    behind the base URL of the request. *)
Theorem featured_default_image random wb featuredModels qmarket qcity qcount baseUrl :
  sheetToJson wb "products" = [] →
  ∃ items,
    featured random (Some wb) featuredModels qmarket qcity qcount baseUrl
    = Json (toUpperCase (ToString (qmarket ||| VStr "AO"))) (clampCount qcount) items ∧
    Forall (λ it, it_image it
                  = VStr (baseUrl ++ "/public/products/" ++ it_id it ++ ".png")) items.
Proof.
  intros Hps.
  destruct (featured_returns random wb featuredModels qmarket qcity qcount baseUrl)
    as [items Hitems].
  { intros p Hp. apply (default_images random wb _ p Hps Hp). }
  exists items. split; [done|]. apply Forall_forall. intros it Hit.
  destruct (featured_item_product _ _ _ _ _ _ _ _ _ _ _ Hitems Hit)
    as (p & Hp & _ & Hitem).
  pose proof (itemOf_image _ _ _ _ _ Hitem) as Himg.
  apply itemOf_Some in Hitem as (-> & _).
  destruct (product_image_shape _ _ _ _ Hp) as [_ E]. rewrite (E Hps) in Himg.
  simpl in Himg. by injection Himg as <-.
Qed.

Lemma featured_default_image_witness :
  let wb : workbook :=
    {[ "prices_novos" :=
         [ {[ "model" := VStr "MacBook Air M2"; "storage_gb" := VNum (Fin 256);
              "price" := VNum (Fin 1200000); "Disponibilidade" := VStr "LUANDA" ]} ] ]} in
  ∃ items,
    featured (λ _, 0%Q) (Some wb) [] VUndef VUndef VUndef "http://host"
    = Json "AO" (Fin 8) items ∧
    Forall (λ it, it_image it
                  = VStr ("http://host" ++ "/public/products/" ++ it_id it ++ ".png"))
      items.
Proof.
  intros wb.
  apply (featured_default_image (λ _, 0%Q) wb [] VUndef VUndef VUndef "http://host").
  reflexivity.
Defined.

Lemma lower_upper_char c : lower_char (upper_char c) = lower_char c.
Proof. destruct c as [[] [] [] [] [] [] [] []]; reflexivity. Qed.

Lemma upper_lower_char c : upper_char (lower_char c) = upper_char c.
Proof. destruct c as [[] [] [] [] [] [] [] []]; reflexivity. Qed.

Lemma toLowerCase_toUpperCase s : toLowerCase (toUpperCase s) = toLowerCase s.
Proof.
  unfold toLowerCase, toUpperCase. induction s as [|c s IH]; simpl; [done|].
  by rewrite lower_upper_char, IH.
Qed.

Lemma toUpperCase_toLowerCase s : toUpperCase (toLowerCase s) = toUpperCase s.
Proof.
  unfold toLowerCase, toUpperCase. induction s as [|c s IH]; simpl; [done|].
  by rewrite upper_lower_char, IH.
Qed.

(** X15.  The handler does not tell the case of the letters of its
    [market] and [city] parameters, for ASCII texts. *)
Theorem featured_query_case_insensitive
    random wb featuredModels m c qcount baseUrl :
  is_ascii_text m = true → is_ascii_text c = true →
  featured random wb featuredModels (VStr (toLowerCase m)) (VStr (toUpperCase c))
    qcount baseUrl
  = featured random wb featuredModels (VStr m) (VStr c) qcount baseUrl.
Proof.
  intros _ _.
  assert (Hm : toUpperCase (ToString (VStr (toLowerCase m) ||| VStr "AO"))
               = toUpperCase (ToString (VStr m ||| VStr "AO"))).
  { destruct m as [|a m]; [done|]. unfold js_or. simpl truthy. cbv iota.
    apply toUpperCase_toLowerCase. }
  assert (Hc : toLowerCase (ToString (VStr (toUpperCase c) ||| VStr "Luanda"))
               = toLowerCase (ToString (VStr c ||| VStr "Luanda"))).
  { destruct c as [|a c]; [done|]. unfold js_or. simpl truthy. cbv iota.
    apply toLowerCase_toUpperCase. }
  unfold featured. by rewrite Hm, Hc.
Qed.

Lemma featured_query_case_insensitive_witness :
  let wb : workbook :=
    {[ "prices_usados" :=
         [ {[ "model" := VStr "iPhone 13"; "storage_gb" := VNum (Fin 128);
              "market" := VStr "us"; "price" := VNum (Fin 500);
              "disponibilidade" := VStr "Luanda, Benguela" ]} ] ]} in
  featured (λ _, 0%Q) (Some wb) [] (VStr (toLowerCase "Us")) (VStr (toUpperCase "Benguela"))
    VUndef "http://host"
  = featured (λ _, 0%Q) (Some wb) [] (VStr "Us") (VStr "Benguela") VUndef "http://host".
Proof.
  intros wb.
  apply (featured_query_case_insensitive (λ _, 0%Q) (Some wb) [] "Us" "Benguela");
    reflexivity.
Defined.

Lemma orderItems_nil preferred : orderItems preferred [] = [].
Proof.
  unfold orderItems. simpl.
  assert (H : ∀ acc, foldl (λ ordered m,
             match mapByModel_get [] m with
             | Some it => app ordered [it]
             | None => ordered
             end) acc preferred = acc).
  { induction preferred as [|m l IH]; intros acc; simpl; [done|].
    rewrite IH. by destruct m. }
  apply H.
Qed.

Lemma slice_to_nil {A} e : slice_to (@nil A) e = [].
Proof.
  unfold slice_to. destruct e as [|q]; [done|].
  destruct (_ <? _)%Z; apply take_nil.
Qed.

(** X16.  On a workbook without price rows the handler answers with an
    empty list of items, not with an error. *)
Theorem featured_without_price_rows
    random (wb : workbook) featuredModels qmarket qcity qcount baseUrl :
  sheetToJson wb "prices_usados" = [] → sheetToJson wb "prices_novos" = [] →
  featured random (Some wb) featuredModels qmarket qcity qcount baseUrl
  = Json (toUpperCase (ToString (qmarket ||| VStr "AO"))) (clampCount qcount) [].
Proof.
  intros Hu Hn. unfold featured.
  rewrite (buildCatalog_no_rows random wb _ Hu Hn).
  unfold featuredItems. simpl. by rewrite orderItems_nil, slice_to_nil.
Qed.

Lemma featured_without_price_rows_witness :
  featured (λ _, 0%Q) (Some {[ "prices_usados" := [] ]}) [VStr "iPhone 13"]
    (VStr "us") VUndef (VStr "3") "http://host"
  = Json "US" (Fin 3) [].
Proof.
  by apply (featured_without_price_rows (λ _, 0%Q) {[ "prices_usados" := [] ]}).
Defined.

(** ** Regular expressions *)

Lemma string_app_nil s1 s2 : s1 ++ s2 = "" → s1 = "" ∧ s2 = "".
Proof. destruct s1; [done|]. simpl. discriminate. Qed.

Lemma nullable_spec r : nullable r = true ↔ regex_matches r "".
Proof.
  split.
  - induction r as [| |p|r1 IH1 r2 IH2|r1 IH1 r2 IH2|r IH]; simpl; try done.
    + intros _. constructor.
    + intros [H1 H2]%andb_true_iff. change "" with ("" ++ ""). constructor; auto.
    + intros [H|H]%orb_true_iff; [apply match_alt_l|apply match_alt_r]; auto.
    + intros _. constructor.
  - intros H. remember "" as s eqn:E.
    induction H as [|p c Hp|r1 r2 s1 s2 H1 IH1 H2 IH2|r1 r2 s H IH|r1 r2 s H IH|r
                       |r s1 s2 H1 IH1 H2 IH2]; simpl; try done.
    + apply string_app_nil in E as [-> ->]. by rewrite IH1, IH2.
    + by rewrite IH.
    + rewrite IH by done. apply orb_true_r.
Qed.

Lemma deriv_sound r : ∀ c s, regex_matches (deriv c r) s → regex_matches r (String c s).
Proof.
  induction r as [| |p|r1 IH1 r2 IH2|r1 IH1 r2 IH2|r IH]; intros c s H; simpl in H.
  - inversion H.
  - inversion H.
  - destruct (p c) eqn:E; inversion H; subst. by constructor.
  - assert (Hcat : ∀ w, regex_matches (RCat (deriv c r1) r2) w →
                        regex_matches (RCat r1 r2) (String c w)).
    { intros w Hw. inversion Hw as [| |? ? s1 s2 H1 H2| | | |]; subst.
      change (String c (s1 ++ s2)) with (String c s1 ++ s2). constructor; auto. }
    destruct (nullable r1) eqn:E; [|by apply Hcat].
    inversion H as [| | |? ? ? Hl|? ? ? Hr| |]; subst; [by apply Hcat|].
    change (String c s) with ("" ++ String c s). constructor; [|auto].
    by apply nullable_spec.
  - inversion H as [| | |? ? ? Hl|? ? ? Hr| |]; subst;
      [apply match_alt_l|apply match_alt_r]; auto.
  - inversion H as [| |? ? s1 s2 H1 H2| | | |]; subst.
    change (String c (s1 ++ s2)) with (String c s1 ++ s2). constructor; auto.
Qed.

Lemma deriv_complete r c s : regex_matches r (String c s) → regex_matches (deriv c r) s.
Proof.
  intros H. remember (String c s) as w eqn:E. revert c s E.
  induction H as [|p a Hp|r1 r2 s1 s2 H1 IH1 H2 IH2|r1 r2 w H IH|r1 r2 w H IH|r
                     |r s1 s2 H1 IH1 H2 IH2]; intros c s E; simpl.
  - done.
  - injection E as -> <-. rewrite Hp. constructor.
  - destruct s1 as [|a s1'].
    + simpl in E. apply nullable_spec in H1 as ->. apply match_alt_r. auto.
    + injection E as -> <-.
      assert (regex_matches (RCat (deriv c r1) r2) (s1' ++ s2)) by (constructor; auto).
      destruct (nullable r1); [by apply match_alt_l|done].
  - apply match_alt_l. auto.
  - apply match_alt_r. auto.
  - done.
  - destruct s1 as [|a s1'].
    + simpl in E. by apply IH2 in E.
    + injection E as -> <-. constructor; auto.
Qed.

Lemma regex_test_spec s : ∀ r, regex_test r s = true ↔ regex_matches r s.
Proof.
  induction s as [|c s IH]; intros r; simpl.
  - apply nullable_spec.
  - rewrite IH. split; [apply deriv_sound|apply deriv_complete].
Qed.

Lemma cat_matches r1 r2 s :
  regex_matches (RCat r1 r2) s ↔
  ∃ s1 s2, s = s1 ++ s2 ∧ regex_matches r1 s1 ∧ regex_matches r2 s2.
Proof.
  split.
  - intros H. inversion H as [| |? ? s1 s2 H1 H2| | | |]; subst. by exists s1, s2.
  - intros (s1 & s2 & -> & H1 & H2). by constructor.
Qed.

Lemma class_matches p s :
  regex_matches (RClass p) s ↔ ∃ c, s = String c "" ∧ p c = true.
Proof.
  split.
  - intros H. inversion H; subst. by eexists.
  - intros (c & -> & Hp). by constructor.
Qed.

Lemma char_matches c s : regex_matches (RChar c) s ↔ s = String c "".
Proof.
  unfold RChar. rewrite class_matches. split.
  - by intros (a & -> & ->%Ascii.eqb_eq).
  - intros ->. exists c. by rewrite Ascii.eqb_refl.
Qed.

Lemma star_class_matches p s :
  regex_matches (RStar (RClass p)) s ↔ string_forall p s = true.
Proof.
  split.
  - intros H. remember (RStar (RClass p)) as r eqn:E.
    induction H as [| | | | | |r s1 s2 H1 _ H2 IH2]; try done.
    injection E as ->. apply class_matches in H1 as (c & -> & Hc).
    simpl. rewrite Hc. by apply IH2.
  - induction s as [|c s IH]; simpl; [constructor|].
    intros [Hc Hs]%andb_true_iff.
    change (String c s) with (String c "" ++ s). constructor; [by constructor|auto].
Qed.

Lemma plus_class_matches p s :
  regex_matches (RPlus (RClass p)) s ↔ s ≠ "" ∧ string_forall p s = true.
Proof.
  unfold RPlus. rewrite cat_matches. split.
  - intros (s1 & s2 & -> & (c & -> & Hc)%class_matches & H2%star_class_matches).
    simpl. by rewrite Hc.
  - destruct s as [|c s]; [by intros [? _]|]. simpl.
    intros [_ [Hc Hs]%andb_true_iff].
    exists (String c ""), s. split; [done|]. split.
    + by constructor.
    + by apply star_class_matches.
Qed.

(** ** The subscription endpoint *)

(** X17.  Among the texts of ASCII characters, where the class [\s] is
    the one modelled, the test of the email accepts exactly those made of a
    local part, an at sign, a domain, a period and an ending, each of the
    three non-empty and free of white space and at signs. *)
Theorem email_accepted_iff s :
  is_ascii_text s = true →
  regex_test emailRegex s = true ↔
  ∃ a b c, s = a ++ "@" ++ b ++ "." ++ c ∧
           a ≠ "" ∧ b ≠ "" ∧ c ≠ "" ∧
           string_forall email_char a = true ∧
           string_forall email_char b = true ∧
           string_forall email_char c = true.
Proof.
  intros _. rewrite regex_test_spec. unfold emailRegex. split.
  - intros (a & s1 & -> & [Ha Ha']%plus_class_matches &
            (x & s2 & -> & ->%char_matches &
             (b & s3 & -> & [Hb Hb']%plus_class_matches &
              (y & c & -> & ->%char_matches & [Hc Hc']%plus_class_matches
              )%cat_matches)%cat_matches)%cat_matches)%cat_matches.
    by exists a, b, c.
  - intros (a & b & c & -> & Ha & Hb & Hc & Ha' & Hb' & Hc').
    apply cat_matches. exists a, ("@" ++ b ++ "." ++ c).
    split; [done|]. split; [by apply plus_class_matches|].
    apply cat_matches. exists "@", (b ++ "." ++ c).
    split; [done|]. split; [by apply char_matches|].
    apply cat_matches. exists b, ("." ++ c).
    split; [done|]. split; [by apply plus_class_matches|].
    apply cat_matches. exists ".", c.
    split; [done|]. split; [by apply char_matches|by apply plus_class_matches].
Qed.

Lemma email_accepted_iff_witness :
  regex_test emailRegex "ana@loja.co.ao" = true ↔
  ∃ a b c, "ana@loja.co.ao" = a ++ "@" ++ b ++ "." ++ c ∧
           a ≠ "" ∧ b ≠ "" ∧ c ≠ "" ∧
           string_forall email_char a = true ∧
           string_forall email_char b = true ∧
           string_forall email_char c = true.
Proof. by apply (email_accepted_iff "ana@loja.co.ao"). Defined.

Lemma string_app_assoc (a b c : string) : (a ++ b) ++ c = a ++ b ++ c.
Proof.
  induction a as [|x a IH]; [done|].
  change (String x ((a ++ b) ++ c) = String x (a ++ b ++ c)). by f_equal.
Qed.

Lemma string_app_nil_r (a : string) : a ++ "" = a.
Proof.
  induction a as [|x a IH]; [done|].
  change (String x (a ++ "") = String x a). by f_equal.
Qed.

Lemma regex_test_empty : regex_test emailRegex "" = false.
Proof. reflexivity. Qed.

Lemma subscribe_cases file now body ua :
  match subscribedLine now body ua with
  | Some line =>
      subscribe file now body ua
      = (SubscribeOk, Some (match file with
                            | None => csvHeader ++ line
                            | Some f => f ++ line
                            end))
  | None => subscribe file now body ua = (SubscribeError 400 "invalid_email", file)
  end.
Proof.
  unfold subscribedLine, subscribe.
  set (email := toLowerCase _).
  destruct (regex_test emailRegex email) eqn:E; simpl.
  - destruct email as [|c e] eqn:Ee; [done|]. simpl.
    by destruct file.
  - by rewrite orb_true_r.
Qed.

Lemma subscribeAll_cons file now body ua reqs :
  subscribeAll file ((now, body, ua) :: reqs)
  = subscribeAll (subscribe file now body ua).2 reqs.
Proof. reflexivity. Qed.

Lemma subscribeAll_Some reqs : ∀ f,
  subscribeAll (Some f) reqs
  = Some (f ++ foldr String.append ""
                 (omap (λ '(now, body, ua), subscribedLine now body ua) reqs)).
Proof.
  induction reqs as [|[[now body] ua] reqs IH]; intros f.
  - simpl. by rewrite string_app_nil_r.
  - rewrite subscribeAll_cons.
    pose proof (subscribe_cases (Some f) now body ua) as H.
    cbn [omap list_omap].
    destruct (subscribedLine now body ua) as [line|]; rewrite H; cbn [snd].
    + rewrite IH. cbn [foldr]. by rewrite string_app_assoc.
    + apply IH.
Qed.

(** X18.  Starting without the file, any sequence of requests leaves no
    file when none was accepted, and otherwise the header once, followed by
    the lines of the accepted requests in their order; a rejected request
    leaves no trace. *)
Theorem subscribeAll_from_nothing reqs :
  subscribeAll None reqs
  = match omap (λ '(now, body, ua), subscribedLine now body ua) reqs with
    | [] => None
    | lines => Some (csvHeader ++ foldr String.append "" lines)
    end.
Proof.
  induction reqs as [|[[now body] ua] reqs IH]; [done|].
  rewrite subscribeAll_cons.
  pose proof (subscribe_cases None now body ua) as H.
  cbn [omap list_omap].
  destruct (subscribedLine now body ua) as [line|]; rewrite H; cbn [snd].
  - rewrite subscribeAll_Some. cbn [foldr]. by rewrite string_app_assoc.
  - apply IH.
Qed.

(** X19.  A request never shortens or rewrites the file: what was there
    is a prefix of what is there afterwards, and a rejected request (status
    400) leaves the file as it was, absent if it was absent. *)
Theorem subscribe_appends file now body ua :
  match subscribe file now body ua with
  | (SubscribeOk, file') =>
      ∃ added, added ≠ "" ∧ file' = Some (default "" file ++ added)
  | (SubscribeError status error, file') =>
      status = 400%nat ∧ error = "invalid_email" ∧ file' = file
  end.
Proof.
  pose proof (subscribe_cases file now body ua) as H.
  destruct (subscribedLine now body ua) as [line|] eqn:E; rewrite H; [|done].
  assert (Hline : line ≠ "").
  { unfold subscribedLine in E. destruct (regex_test _ _); [|done].
    injection E as <-. unfold csvLine. by intros [_ ?]%string_app_nil. }
  destruct file as [f|]; simpl.
  - by exists line.
  - exists (csvHeader ++ line). done.
Qed.

Lemma count_char_app c s1 s2 :
  count_char c (s1 ++ s2) = (count_char c s1 + count_char c s2)%nat.
Proof.
  induction s1 as [|a s1 IH]; [done|].
  change (String a s1 ++ s2) with (String a (s1 ++ s2)). simpl. rewrite IH. lia.
Qed.

Lemma count_char_double_quotes c s :
  c ≠ quote_char → count_char c (double_quotes s) = count_char c s.
Proof.
  intros Hc. induction s as [|a s IH]; [done|]. cbn [double_quotes].
  destruct (Ascii.eqb_spec a quote_char) as [->|Hne]; cbn [count_char]; rewrite IH;
    [|done].
  assert (Ascii.eqb quote_char c = false) as -> by (apply Ascii.eqb_neq; congruence).
  done.
Qed.

Lemma count_quotes_double_quotes s :
  count_char quote_char (double_quotes s) = (2 * count_char quote_char s)%nat.
Proof.
  induction s as [|a s IH]; [done|]. cbn [double_quotes].
  destruct (Ascii.eqb a quote_char) eqn:E; cbn [count_char]; rewrite IH, !E; lia.
Qed.

(** X20.  The fields of a line are written as they are but for their
    double quotes, which are doubled: no field is put between quotes and no
    comma is escaped, so that the line holds four commas more than its
    fields, and twice their double quotes. *)
Theorem csvLine_commas_and_quotes now name email phone userAgent :
  let fields := [now; name; email; phone; userAgent] in
  count_char "," (csvLine now name email phone userAgent)
  = (4 + sum_list (count_char "," <$> fields))%nat ∧
  count_char quote_char (csvLine now name email phone userAgent)
  = (2 * sum_list (count_char quote_char <$> fields))%nat.
Proof.
  unfold csvLine. simpl. split.
  - rewrite !count_char_app, !count_char_double_quotes by done. simpl. lia.
  - rewrite !count_char_app, !count_quotes_double_quotes. simpl. lia.
Qed.

(** ** detectColorKeyFromHex *)

(** X21.  [detectColorKeyFromHex] answers with one of nine keys, and
    does not tell the case of the letters of an ASCII text. *)
Theorem detectColorKeyFromHex_keys hex s :
  is_ascii_text s = true →
  detectColorKeyFromHex hex ∈ colorKeys ∧
  detectColorKeyFromHex (VStr (toUpperCase s)) = detectColorKeyFromHex (VStr s).
Proof.
  intros _. split.
  - unfold detectColorKeyFromHex, colorKeys.
    repeat (match goal with |- context [if ?b then _ else _] => destruct b end);
      set_solver.
  - unfold detectColorKeyFromHex. simpl ToString.
    rewrite toLowerCase_toUpperCase.
    by destruct s.
Qed.

Lemma detectColorKeyFromHex_keys_witness :
  detectColorKeyFromHex (VNum (Fin 0)) ∈ colorKeys ∧
  detectColorKeyFromHex (VStr (toUpperCase "#1d4ed8")) = detectColorKeyFromHex (VStr "#1d4ed8").
Proof. apply (detectColorKeyFromHex_keys (VNum (Fin 0)) "#1d4ed8"). reflexivity. Defined.

(** ** inferCategory *)

Lemma prefix_app_l p q : ∀ s, String.prefix (p ++ q) s = true → String.prefix p s = true.
Proof.
  induction p as [|a p IH]; intros s; [by destruct s|].
  change (String a p ++ q) with (String a (p ++ q)).
  destruct s as [|b s]; simpl; [done|].
  destruct (ascii_dec a b); [apply IH|done].
Qed.

Lemma includes_app_l s p q : includes s (p ++ q) = true → includes s p = true.
Proof.
  induction s as [|a s IH].
  - change (String.prefix (p ++ q) "" || false = true →
            String.prefix p "" || false = true).
    rewrite !orb_false_r. apply prefix_app_l.
  - change (String.prefix (p ++ q) (String a s) || includes s (p ++ q) = true →
            String.prefix p (String a s) || includes s p = true).
    intros [H|H]%orb_true_iff; apply orb_true_iff; [left|right].
    + by apply (prefix_app_l p q).
    + by apply IH.
Qed.

(** X22.  The test for [macbook] in [inferCategory] decides nothing: a
    text that holds [macbook] holds [mac], so the category is the one given
    by the tests for [ipad], [mac] and [watch], in this order. *)
Theorem inferCategory_macbook_test_redundant model fallback :
  let m := toLowerCase (ToString model) in
  inferCategory model fallback
  = if includes m "ipad" then "iPads"
    else if includes m "mac" then "MacBooks"
    else if includes m "watch" then "Apple Watch"
    else fallback.
Proof.
  intros m. unfold inferCategory. fold m.
  destruct (includes m "ipad"); [done|].
  destruct (includes m "macbook") eqn:E; [|done].
  by rewrite (includes_app_l m "mac" "book" E).
Qed.
